(** * Nodal PostgreSQL adapter (core/required/db/adapters/postgres8.js)

    A shallow embedding of the [PostgresAdapter] class: the pooled
    [query], [transaction] and [createTransaction] operations as programs
    of a small exception-and-state monad that records every interaction
    with the collaborators (pool, client, logger, completion handler), and
    [generateOrderByClause] as a program over a store of order-spec
    objects, since it writes a property of the objects it is handed.

    The operations are written in continuation-passing style in the source.
    Here a call to a collaborator returns what the collaborator passes to
    its continuation, and the body of the continuation follows the call; the
    trace of an operation is the sequence of its interactions in the order
    in which they happen.  One operation is run on its own: what other
    operations do to the pool in the meantime shows only in the answers of
    the collaborators, which are arbitrary.  Strings are sequences of
    bytes; the separators that matter, [__] and [;], are ASCII. *)

From Stdlib Require Import ZArith.
From stdpp Require Import gmap strings list.

Set Default Proof Using "Type".

(** ** JavaScript strings: [split] and [join] *)

Module Js.

(** [is_prefix p s]: [s] starts with [p]. *)
Fixpoint is_prefix (p s : string) : bool :=
  match p, s with
  | EmptyString, _ => true
  | String a p', String b s' => if Ascii.eqb a b then is_prefix p' s' else false
  | String _ _, EmptyString => false
  end.

(** [String.prototype.split] with a non-empty string separator: the subject
    is scanned from the left, every occurrence of the separator found at the
    scanning position closes the current piece and the scan resumes after
    it.  [skip] counts the characters of a matched separator that are still
    to be passed over, [acc] is the piece being read. *)
Fixpoint split_aux (sep : string) (skip : nat) (acc s : string) : list string :=
  match s with
  | EmptyString => [acc]
  | String c s' =>
      match skip with
      | S k => split_aux sep k acc s'
      | O =>
          if is_prefix sep s
          then acc :: split_aux sep (String.length sep - 1) "" s'
          else split_aux sep 0 (acc +:+ String c "") s'
      end
  end.

Definition split (sep s : string) : list string := split_aux sep 0 "" s.

(** [Array.prototype.join] on an array of strings. *)
Fixpoint join (sep : string) (l : list string) : string :=
  match l with
  | [] => ""
  | [x] => x
  | x :: rest => x +:+ sep +:+ join sep rest
  end.

(** [a.slice(0, -1)] and [a[a.length - 1]] on an array of strings; reading
    past the end of an empty array gives [undefined], which is printed as
    such when it reaches a template literal. *)
Definition slice_init (l : list string) : list string := removelast l.
Definition last_elt (l : list string) : string := List.last l "undefined".

(** [s] contains [sep] somewhere. *)
Definition occurs (sep s : string) : Prop :=
  exists a b, s = a +:+ sep +:+ b.

(** No occurrence of the separator starts inside the piece being read, not
    even one that runs on into the rest of the subject. *)
Definition no_match_inside (sep acc s : string) : Prop :=
  forall a b, acc = a +:+ b -> b <> "" -> is_prefix sep (b +:+ s) = false.

End Js.

(** ** Computations with exceptions and state *)

(** A JavaScript [Error] object, identified by its [message]. *)
Record error := Error { message : string }.

(** How a piece of code ends: normally with a value, or by throwing. *)
Inductive completion (A : Type) :=
| Normal (a : A)
| Throw (e : error).
Arguments Normal {A} a.
Arguments Throw {A} e.

Definition M (S A : Type) : Type := S -> completion A * S.

Definition ret {S A} (a : A) : M S A := fun s => (Normal a, s).

Definition throw {S A} (e : error) : M S A := fun s => (Throw e, s).

Definition bind {S A B} (m : M S A) (k : A -> M S B) : M S B :=
  fun s =>
    match m s with
    | (Normal a, s') => k a s'
    | (Throw e, s') => (Throw e, s')
    end.

Declare Scope js_scope.
Delimit Scope js_scope with js.
Notation "x <- m ;; k" := (bind m (fun x => k))
  (at level 100, m at next level, right associativity) : js_scope.
Notation "m ;; k" := (bind m (fun _ => k))
  (at level 100, right associativity) : js_scope.
Open Scope js_scope.

(** ** The order-by clause builder *)

Module OrderBy.

(** An entry of a join group; only [joinAlias] is read by the builder. *)
Record join_entry := Join { joinAlias : string }.

(** An order-spec object.  [escapedColumns] is the property the builder
    assigns; it is [None] on an object that does not have it yet. *)
Record orderObj := OrderObj {
  columnNames : list string;
  direction : string;
  transformation : option (list string -> string);
  escapedColumns : option (list string)
}.

(** The store of order-spec objects; [orderByArray] holds references. *)
Abbreviation heap := (gmap nat orderObj).

Definition set_escapedColumns (v : orderObj) (cols : list string) : orderObj :=
  {| columnNames := columnNames v;
     direction := direction v;
     transformation := transformation v;
     escapedColumns := Some cols |}.

(** [joinArray.every(joinObj => { join = joinObj.find(...); return !join; })]:
    the groups are visited in order, [join] is reassigned in each, and the
    iteration stops at the first group in which [find] returned an entry. *)
Fixpoint every_find (chain : string) (joinArray : list (list join_entry))
  : option join_entry :=
  match joinArray with
  | [] => None
  | joinObj :: rest =>
      match List.find (fun join => String.eqb (joinAlias join) chain) joinObj with
      | Some join => Some join
      | None => every_find chain rest
      end
  end.

(** [!!columnName] in the filter over the resolved columns: [null] and the
    empty string are falsy. *)
Definition truthy (c : option string) : bool :=
  match c with
  | Some s => negb (String.eqb s "")
  | None => false
  end.

Fixpoint filter_truthy (l : list (option string)) : list string :=
  match l with
  | [] => []
  | Some s :: rest =>
      if truthy (Some s) then s :: filter_truthy rest else filter_truthy rest
  | None :: rest => filter_truthy rest
  end.

Section Builder.

(** [this.escapeField], inherited from the base adapter. *)
Variable escapeField : string -> string.

(** The arrow function mapped over [v.columnNames]; [None] is [null]. *)
Definition escapeColumn (table : string)
    (joinArray : option (list (list join_entry))) (columnName : string)
  : option string :=
  let columnNameComponents := Js.split "__" columnName in
  if Nat.eqb (length columnNameComponents) 1 then
    Some (escapeField table +:+ "." +:+ escapeField columnName)
  else
    match joinArray with
    | Some joinArray =>
        let join :=
          every_find (Js.join "__" (Js.slice_init columnNameComponents))
                     joinArray in
        match join with
        | None => Some (escapeField table +:+ "." +:+ escapeField columnName)
        | Some join =>
            Some (escapeField (joinAlias join) +:+ "." +:+
                  escapeField (Js.last_elt columnNameComponents))
        end
    | None => None
    end.

Definition resolveColumns (table : string)
    (joinArray : option (list (list join_entry))) (names : list string)
  : list string :=
  filter_truthy (map (escapeColumn table joinArray) names).

(** Reading a property of an array element that is not an object. *)
Definition not_an_object : error :=
  Error "Cannot read properties of undefined".

(** Following a reference of the array, and assigning to the object. *)
Definition read (r : nat) : M heap orderObj :=
  fun h =>
    match h !! r with
    | Some v => (Normal v, h)
    | None => (Throw not_an_object, h)
    end.

Definition write (r : nat) (v : orderObj) : M heap unit :=
  fun h => (Normal tt, <[r := v]> h).

Definition get_heap : M heap heap := fun h => (Normal h, h).

(** [orderByArray.map(v => { v.escapedColumns = ...; return v; })]: every
    referenced object is updated in the store, in array order; the mapped
    array holds the same references. *)
Fixpoint map_escape (table : string)
    (joinArray : option (list (list join_entry))) (orderByArray : list nat)
  : M heap (list nat) :=
  match orderByArray with
  | [] => ret []
  | r :: rest =>
      v <- read r ;;
      write r (set_escapedColumns v
                 (resolveColumns table joinArray (columnNames v))) ;;
      rs <- map_escape table joinArray rest ;;
      ret (r :: rs)
  end.

(** [v.escapedColumns.length] read through a reference; the filter and the
    final map run on objects the first map has assigned the property of. *)
Definition escaped_of (h : heap) (r : nat) : list string :=
  match h !! r with
  | Some v => default [] (escapedColumns v)
  | None => []
  end.

(** [.filter(v => v.escapedColumns.length)] *)
Definition filter_nonempty (h : heap) (refs : list nat) : list nat :=
  List.filter (fun r => negb (Nat.eqb (length (escaped_of h r)) 0)) refs.

(** [(v.transformation || (v => v)).apply(null, v.escapedColumns)] *)
Definition apply_transformation (t : option (list string -> string))
    (cols : list string) : string :=
  match t with
  | Some f => f cols
  | None => match cols with c :: _ => c | [] => "undefined" end
  end.

(** One term of the clause: the transformed columns and the direction. *)
Definition term (h : heap) (r : nat) : string :=
  match h !! r with
  | Some v =>
      apply_transformation (transformation v) (escaped_of h r)
        +:+ " " +:+ direction v
  | None => ""
  end.

Definition generateOrderByClause (table : string) (orderByArray : list nat)
    (groupByArray : list string) (joinArray : option (list (list join_entry)))
  : M heap string :=
  mapped <- map_escape table joinArray orderByArray ;;
  h <- get_heap ;;
  let columnEscapedOrderByArray := filter_nonempty h mapped in
  ret (if Nat.eqb (length columnEscapedOrderByArray) 0 then ""
       else " ORDER BY "
            +:+ Js.join ", " (map (term h) columnEscapedOrderByArray)).

End Builder.

(** Modelled from the spec: [escapeField] of the base adapter
    (./postgres.js, not part of the sources at hand), which wraps an
    identifier in double quotes, as in the spec's example fragments. *)
Definition dquote : string := String (Ascii.ascii_of_nat 34) EmptyString.
Definition escapeField_pg (name : string) : string := dquote +:+ name +:+ dquote.

(** *** The builder's result, stated on the order specs themselves *)

(** [j] is the first entry aliased [chain] when the groups are read one
    after the other, each from its first entry on. *)
Definition first_match (chain : string) (groups : list (list join_entry))
    (j : join_entry) : Prop :=
  exists pre post,
    concat groups = pre ++ j :: post /\
    joinAlias j = chain /\
    Forall (fun e => joinAlias e <> chain) pre.

Definition no_match (chain : string) (groups : list (list join_entry)) : Prop :=
  Forall (fun e => joinAlias e <> chain) (concat groups).

Section Clause.

Variable escapeField : string -> string.
Variable table : string.
Variable joinArray : option (list (list join_entry)).

(** [table] or an alias, a dot, and the column, both escaped. *)
Definition qualified (qualifier column : string) : string :=
  escapeField qualifier +:+ "." +:+ escapeField column.

(** The order specs an array of references stands for. *)
Definition specs_of (h : heap) (refs : list nat) : list orderObj :=
  omap (fun r => h !! r) refs.

(** The resolved columns of an order spec: the references that resolve, in
    the order of [columnNames]. *)
Definition resolved (v : orderObj) : list string :=
  omap (escapeColumn escapeField table joinArray) (columnNames v).

Definition survives (v : orderObj) : bool :=
  match resolved v with
  | [] => false
  | _ :: _ => true
  end.

Definition term_of (v : orderObj) : string :=
  apply_transformation (transformation v) (resolved v) +:+ " " +:+ direction v.

Definition clause (prefix : string) (vs : list orderObj) : string :=
  match List.filter survives vs with
  | [] => ""
  | kept => prefix +:+ Js.join ", " (map term_of kept)
  end.

(** The order spec as the builder leaves it. *)
Definition escaped (v : orderObj) : orderObj :=
  set_escapedColumns v (resolved v).

(** Every element of the array is a reference to an order-spec object. *)
Definition all_objects (h : heap) (refs : list nat) : Prop :=
  Forall (fun r => is_Some (h !! r)) refs.

(** The store after the builder has run over [refs]: the referenced objects
    carry their resolved columns, the others are as before. *)
Definition store_after (h h' : heap) (refs : list nat) : Prop :=
  forall x, h' !! x = if bool_decide (x ∈ refs) then escaped <$> h !! x else h !! x.

End Clause.

(** An order spec on one plain column, and a store holding just it. *)
Definition by_name : orderObj := OrderObj ["name"] "ASC" None None.
Definition one_spec : heap := {[ 0 := by_name ]}.

(** An order spec on a joined column and a plain one, and two join groups. *)
Definition by_bio : orderObj := OrderObj ["profile__bio"; "name"] "DESC" None None.
Definition two_groups : list (list join_entry) := [[Join "account"]; [Join "profile"]].

End OrderBy.

(** ** The pooled operations *)

Module Adapter.

(** The JavaScript values that reach the adapter or leave it. *)
#[warnings="-register-all"] Inductive value :=
| VUndefined
| VNull
| VTrue
| VString (s : string)
| VArray (l : list value)
| VFunction                  (* the caller's completion handler *)
| VNoop                      (* the adapter's own [function() {}] *)
| VError (e : error)
| VResult (r : string)       (* a result object of the driver *)
| VTransaction.              (* [new Transaction(this, client, complete)] *)

(** What [client.query] hands to its continuation: an error, or [null] and
    a result. *)
Inductive response :=
| Fail (e : error)
| Ok (v : value).

(** The interactions of one operation with its collaborators, in the order
    in which they happen. *)
Inductive event :=
| PoolIsFull                                             (* this.pool._isFull() *)
| PoolConnect                                            (* this.pool.connect(...) *)
| Complete                                               (* complete() *)
| ClientQuery (text : string) (params : option (list value))
| BeginClient                                            (* this.beginClient(client, ...) *)
| QueryClient (query : value) (params : list value)      (* this.queryClient(client, ...) *)
| DbError (msg : string)
| DbInfo (msg : string)
| DbLog (query : string) (params : list value) (elapsed : Z)
| Callback (args : list value)                           (* the caller's handler is invoked *)
| NoopCallback (args : list value).                      (* the substituted handler is invoked *)

(** The collaborators' answers: whether the pool is full, the error of
    [pool.connect] if any and whether a release action comes with that
    error, what [client.query], [beginClient] and [queryClient] pass to
    their continuations, what the caller's handler does (it throws
    [handler_throws], or returns [handler_returns]), and the clock.
    [client_query n] answers the [n]-th call of [client.query] on the
    connection, [now n] is the [n]-th reading of the clock. *)
Record World := {
  isFull : bool;
  connect : option error;
  release_given : bool;
  client_query : nat -> string -> option (list value) -> response;
  beginClient : option error;
  queryClient : value -> list value -> list value;
  handler_returns : value;
  handler_throws : option error;
  now : nat -> Z
}.

Record state := State {
  trace : list event;
  issued : nat;
  ticks : nat
}.

Definition init : state := State [] 0 0.

Definition emit (e : event) : M state unit :=
  fun s => (Normal tt, State (trace s ++ [e]) (issued s) (ticks s)).

(** An element of [preparedArray]: [queryData[0]] and [queryData[1]]. *)
Record queryData := QueryData {
  qd_query : string;
  qd_params : option (list value)
}.

(** The first argument of [transaction]: a string of statements or an array
    of them. *)
Inductive prepared :=
| PreparedString (s : string)
| PreparedArray (l : list queryData).

Definition prepared_length (p : prepared) : nat :=
  match p with
  | PreparedString s => String.length s
  | PreparedArray l => length l
  end.

Definition is_function (v : value) : bool :=
  match v with
  | VFunction | VNoop => true
  | _ => false
  end.

Definition is_array (v : value) : bool :=
  match v with
  | VArray _ => true
  | _ => false
  end.

Definition array_items (v : value) : list value :=
  match v with
  | VArray l => l
  | _ => []
  end.

Section Operations.

Variable w : World.

Definition pool_isFull : M state bool :=
  emit PoolIsFull ;; ret (isFull w).

(** [this.pool.connect((err, client, complete) => ...)]: the answer is the
    [err] argument and whether [complete] is there.  A client always comes
    with its release action.  With an error the pool passes a release
    action that does nothing or, once the pool has been ended (as [close]
    does), no third argument at all: [release_given] tells which. *)
Definition pool_connect : M state (option error * bool) :=
  emit PoolConnect ;;
  ret (connect w,
       match connect w with
       | None => true
       | Some _ => release_given w
       end).

(** [complete()]: the release action is called, or, when the pool passed
    none, the call of [undefined] throws. *)
Definition complete (given : bool) : M state unit :=
  if given then emit Complete
  else throw (Error "complete is not a function").

(** [new Date().valueOf()] *)
Definition date_now : M state Z :=
  fun s => (Normal (now w (ticks s)), State (trace s) (issued s) (S (ticks s))).

Definition db_error (msg : string) : M state unit := emit (DbError msg).
Definition db_info (msg : string) : M state unit := emit (DbInfo msg).
Definition db_log (query : string) (params : list value) (elapsed : Z)
  : M state unit := emit (DbLog query params elapsed).

Definition clientQuery (text : string) (params : option (list value))
  : M state response :=
  fun s =>
    (Normal (client_query w (issued s) text params),
     State (trace s ++ [ClientQuery text params]) (S (issued s)) (ticks s)).

Definition begin_client : M state (option error) :=
  emit BeginClient ;; ret (beginClient w).

Definition query_client (query : value) (params : list value)
  : M state (list value) :=
  emit (QueryClient query params) ;; ret (queryClient w query params).

(** Calling [callback(...)]: the caller's handler, which returns or throws,
    the adapter's no-op, or a value that is not callable. *)
Definition call (callback : value) (args : list value) : M state value :=
  match callback with
  | VFunction =>
      emit (Callback args) ;;
      match handler_throws w with
      | Some e => throw e
      | None => ret (handler_returns w)
      end
  | VNoop => emit (NoopCallback args) ;; ret VUndefined
  | _ => throw (Error "callback is not a function")
  end.

(** Modelled from the spec: [async.series(tasks, callback)] of the async
    library, a dependency that is not part of the sources at hand and that
    the spec describes as a sequential loop with early exit on the first
    failure.  The tasks run one after the other; a task that passes an error
    ends the series, and the final callback receives that error and the
    results gathered so far; otherwise it receives [null] and the results of
    all tasks, in the order of the tasks. *)
Fixpoint series_from (results : list value) (tasks : list (M state response))
  : M state (option error * list value) :=
  match tasks with
  | [] => ret (None, results)
  | task :: rest =>
      r <- task ;;
      match r with
      | Fail e => ret (Some e, results ++ [VUndefined])
      | Ok v => series_from (results ++ [v]) rest
      end
  end.

Definition series : list (M state response) -> M state (option error * list value) :=
  series_from [].

Definition createTransaction (callback : value) : M state value :=
  full <- pool_isFull ;;
  if full then call callback [VError (Error "Pool is full")]
  else
    r <- pool_connect ;;
    let (err, release) := r in
    match err with
    | Some err =>
        complete release ;;
        call callback [VError err] ;;
        ret VUndefined
    | None =>
        err <- begin_client ;;
        match err with
        | Some err =>
            complete release ;;
            call callback [VError err] ;;
            ret VUndefined
        | None =>
            call callback [VNull; VTransaction] ;;
            ret VUndefined
        end
    end.

Definition query (arguments : list value) : M state value :=
  let query := nth 0 arguments VUndefined in
  let params := nth 1 arguments VUndefined in
  let callback := nth 2 arguments VUndefined in
  if length arguments <? 3 then
    throw (Error ".query requires 3 arguments")
  else if negb (is_array params) then
    throw (Error "params must be a valid array")
  else if negb (is_function callback) then
    throw (Error "Callback must be a function")
  else
    full <- pool_isFull ;;
    if full then call callback [VError (Error "Pool is full")]
    else
      r <- pool_connect ;;
      let (err, release) := r in
      match err with
      | Some err =>
          db_error (message err) ;;
          complete release ;;
          call callback [VError err] ;;
          ret VTrue
      | None =>
          arguments <- query_client query (array_items params) ;;
          complete release ;;
          call callback arguments ;;
          ret VTrue
      end.

(** [preparedArray.split(';').filter(v => !!v).map(v => [v])] *)
Definition split_statements (s : string) : list queryData :=
  map (fun v => QueryData v None)
      (List.filter (fun v => negb (String.eqb v "")) (Js.split ";" s)).

(** One task of the batch: log the statement, then run it. *)
Definition statement_task (start : Z) (queryData : queryData) : M state response :=
  let query := qd_query queryData in
  let params := default [] (qd_params queryData) in
  t <- date_now ;;
  db_log query params (t - start) ;;
  clientQuery (qd_query queryData) (qd_params queryData).

(** The statements of the batch: a string is cut into them. *)
Definition statements_of (preparedArray : prepared) : list queryData :=
  match preparedArray with
  | PreparedString s => split_statements s
  | PreparedArray l => l
  end.

Definition transaction (preparedArray : prepared) (callback : value)
  : M state value :=
  if Nat.eqb (prepared_length preparedArray) 0 then
    throw (Error "Must give valid array of statements (with or without parameters)")
  else
    let preparedArray := statements_of preparedArray in
    let callback := if is_function callback then callback else VNoop in
    start <- date_now ;;
    full <- pool_isFull ;;
    if full then call callback [VError (Error "Pool is full")]
    else
      r <- pool_connect ;;
      let (err, release) := r in
      match err with
      | Some err =>
          db_error (message err) ;;
          call callback [VError err] ;;
          complete release ;;
          ret VUndefined
      | None =>
          let queries := map (statement_task start) preparedArray in
          let queries := clientQuery "BEGIN" None :: queries in
          db_info "Transaction started..." ;;
          r <- series queries ;;
          let (txnErr, results) := r in
          match txnErr with
          | Some txnErr =>
              db_error (message txnErr) ;;
              db_info "Rollback started..." ;;
              r <- clientQuery "ROLLBACK" None ;;
              match r with
              | Fail err =>
                  db_error ("Rollback failed - " +:+ message err) ;;
                  db_info "Transaction complete!" ;;
                  call callback [VError err] ;;
                  complete release ;;
                  ret VUndefined
              | Ok _ =>
                  db_info "Rollback complete!" ;;
                  db_info "Transaction complete!" ;;
                  call callback [VError txnErr] ;;
                  complete release ;;
                  ret VUndefined
              end
          | None =>
              db_info "Commit started..." ;;
              r <- clientQuery "COMMIT" None ;;
              match r with
              | Fail err =>
                  db_error ("Commit failed - " +:+ message err) ;;
                  db_info "Transaction complete!" ;;
                  complete release ;;
                  call callback [VError err] ;;
                  ret VUndefined
              | Ok _ =>
                  db_info "Commit complete!" ;;
                  db_info "Transaction complete!" ;;
                  complete release ;;
                  call callback [VNull; VArray results] ;;
                  ret VUndefined
              end
          end
      end.

End Operations.

(** *** Reading a trace *)

(** The statements sent to the connection, in order. *)
Fixpoint queries_of (tr : list event) : list (string * option (list value)) :=
  match tr with
  | [] => []
  | ClientQuery text params :: rest => (text, params) :: queries_of rest
  | _ :: rest => queries_of rest
  end.

(** The arguments of every call of the completion handler, the caller's or
    the substituted one. *)
Fixpoint handler_calls (tr : list event) : list (list value) :=
  match tr with
  | [] => []
  | Callback args :: rest => args :: handler_calls rest
  | NoopCallback args :: rest => args :: handler_calls rest
  | _ :: rest => handler_calls rest
  end.

(** The calls of the caller's own handler. *)
Fixpoint caller_calls (tr : list event) : list (list value) :=
  match tr with
  | [] => []
  | Callback args :: rest => args :: caller_calls rest
  | _ :: rest => caller_calls rest
  end.

(** How often the connection is released, and how often one is asked for. *)
Fixpoint releases (tr : list event) : nat :=
  match tr with
  | [] => 0
  | Complete :: rest => S (releases rest)
  | _ :: rest => releases rest
  end.

Fixpoint acquisitions (tr : list event) : nat :=
  match tr with
  | [] => 0
  | PoolConnect :: rest => S (acquisitions rest)
  | _ :: rest => acquisitions rest
  end.

Definition is_handler_call (e : event) : bool :=
  match e with
  | Callback _ | NoopCallback _ => true
  | _ => false
  end.

(** The connection is released before the completion handler is called:
    the trace has a call of the handler, and a release precedes the first. *)
Fixpoint released_before_callback (tr : list event) : bool :=
  match tr with
  | [] => false
  | Complete :: _ => existsb is_handler_call tr
  | e :: rest => if is_handler_call e then false else released_before_callback rest
  end.

(** The calls of the caller's handler become calls of the no-op. *)
Definition to_noop (e : event) : event :=
  match e with
  | Callback args => NoopCallback args
  | _ => e
  end.

(** The trace of an operation run on its own, and how it ends. *)
Definition trace_of {A} (m : M state A) : list event := trace (snd (m init)).
Definition end_of {A} (m : M state A) : completion A := fst (m init).

(** *** The answers to a batch *)

(** What the connection answers to the statements when they are sent one
    after the other, the first as call number [n]. *)
Fixpoint responses (w : World) (n : nat) (stmts : list queryData)
  : list response :=
  match stmts with
  | [] => []
  | q :: rest =>
      client_query w n (qd_query q) (qd_params q) :: responses w (S n) rest
  end.

(** The results of the answers before the first failure, and that failure. *)
Fixpoint oks (rs : list response) : list value :=
  match rs with
  | Ok v :: rest => v :: oks rest
  | _ => []
  end.

Fixpoint failure (rs : list response) : option error :=
  match rs with
  | [] => None
  | Ok _ :: rest => failure rest
  | Fail e :: _ => Some e
  end.

(** The log entry and the query of each statement, the first logged at the
    [t]-th reading of the clock. *)
Fixpoint statement_events (w : World) (start : Z) (t : nat)
    (stmts : list queryData) : list event :=
  match stmts with
  | [] => []
  | q :: rest =>
      DbLog (qd_query q) (default [] (qd_params q)) (now w t - start)
        :: ClientQuery (qd_query q) (qd_params q)
        :: statement_events w start (S t) rest
  end.

Definition as_query (q : queryData) : string * option (list value) :=
  (qd_query q, qd_params q).

(** *** The batch, path by path *)

Definition BEGIN : queryData := QueryData "BEGIN" None.

(** The event of calling the handler the batch ends with: the caller's when
    it is callable, the no-op otherwise. *)
Definition handler_event (callback : value) (args : list value) : event :=
  match callback with
  | VFunction => Callback args
  | _ => NoopCallback args
  end.

(** What the handler the batch ends with throws, if it throws: only the
    caller's own handler may. *)
Definition handler_throwing (w : World) (callback : value) : option error :=
  match callback with
  | VFunction => handler_throws w
  | _ => None
  end.

(** What still happens after a call of the handler: nothing when it threw. *)
Definition after_handler (w : World) (callback : value) (events : list event)
  : list event :=
  match handler_throwing w callback with
  | Some _ => []
  | None => events
  end.

(** How the handler's call ends, and how an operation ends that goes on to
    return [undefined] after it. *)
Definition handler_end (w : World) (callback : value) : completion value :=
  match callback with
  | VFunction =>
      match handler_throws w with
      | Some e => Throw e
      | None => Normal (handler_returns w)
      end
  | _ => Normal VUndefined
  end.

Definition batch_end (w : World) (callback : value) : completion value :=
  match handler_throwing w callback with
  | Some e => Throw e
  | None => Normal VUndefined
  end.

(** The end of a batch in which a step failed with [txnErr], the rollback
    being call number [n] on the connection. *)
Definition rollback_events (w : World) (callback : value) (txnErr : error)
    (n : nat) : list event :=
  [DbError (message txnErr); DbInfo "Rollback started...";
   ClientQuery "ROLLBACK" None]
  ++ match client_query w n "ROLLBACK" None with
     | Fail err =>
         [DbError ("Rollback failed - " +:+ message err);
          DbInfo "Transaction complete!";
          handler_event callback [VError err]]
         ++ after_handler w callback [Complete]
     | Ok _ =>
         [DbInfo "Rollback complete!"; DbInfo "Transaction complete!";
          handler_event callback [VError txnErr]]
         ++ after_handler w callback [Complete]
     end.

(** The end of a batch in which every step succeeded with [results], the
    commit being call number [n] on the connection. *)
Definition commit_events (w : World) (callback : value) (results : list value)
    (n : nat) : list event :=
  [DbInfo "Commit started..."; ClientQuery "COMMIT" None]
  ++ match client_query w n "COMMIT" None with
     | Fail err =>
         [DbError ("Commit failed - " +:+ message err);
          DbInfo "Transaction complete!";
          Complete; handler_event callback [VError err]]
     | Ok _ =>
         [DbInfo "Commit complete!"; DbInfo "Transaction complete!";
          Complete; handler_event callback [VNull; VArray results]]
     end.

(** The trace of a batch on a connection the pool handed out. *)
Definition batch_events (w : World) (callback : value) (stmts : list queryData)
  : list event :=
  let rs := responses w 0 (BEGIN :: stmts) in
  let k := length (oks rs) in
  [PoolIsFull; PoolConnect; DbInfo "Transaction started...";
   ClientQuery "BEGIN" None]
  ++ match failure rs with
     | Some txnErr =>
         statement_events w (now w 0) 1 (take k stmts)
         ++ rollback_events w callback txnErr (S k)
     | None =>
         statement_events w (now w 0) 1 stmts
         ++ commit_events w callback (oks rs) (S (length stmts))
     end.

(** *** Worlds and batches to run the operations on *)

Definition boom : error := Error "syntax error".
Definition lost : error := Error "connection lost".

Definition S1 : queryData := QueryData "S1" None.
Definition S2 : queryData := QueryData "S2" None.
Definition S3 : queryData := QueryData "S3" None.

(** Every call answers with a result named after the statement. *)
Definition calm : World := {|
  isFull := false;
  connect := None;
  release_given := true;
  client_query := fun _ text _ => Ok (VResult text);
  beginClient := None;
  queryClient := fun _ _ => [VNull; VResult "rows"];
  handler_returns := VUndefined;
  handler_throws := None;
  now := fun n => Z.of_nat n
|}.

(** As [calm], but the statement [S2] fails. *)
Definition s2_fails : World := {|
  isFull := false;
  connect := None;
  release_given := true;
  client_query := fun _ text _ =>
    if String.eqb text "S2" then Fail boom else Ok (VResult text);
  beginClient := None;
  queryClient := fun _ _ => [VNull; VResult "rows"];
  handler_returns := VUndefined;
  handler_throws := None;
  now := fun n => Z.of_nat n
|}.

(** As [s2_fails], and the rollback fails too. *)
Definition rollback_fails : World := {|
  isFull := false;
  connect := None;
  release_given := true;
  client_query := fun _ text _ =>
    if String.eqb text "S2" then Fail boom
    else if String.eqb text "ROLLBACK" then Fail lost
    else Ok (VResult text);
  beginClient := None;
  queryClient := fun _ _ => [VNull; VResult "rows"];
  handler_returns := VUndefined;
  handler_throws := None;
  now := fun n => Z.of_nat n
|}.

(** Every statement succeeds and the commit fails. *)
Definition commit_fails : World := {|
  isFull := false;
  connect := None;
  release_given := true;
  client_query := fun _ text _ =>
    if String.eqb text "COMMIT" then Fail lost else Ok (VResult text);
  beginClient := None;
  queryClient := fun _ _ => [VNull; VResult "rows"];
  handler_returns := VUndefined;
  handler_throws := None;
  now := fun n => Z.of_nat n
|}.

(** The pool has been ended: it reports an error and passes no release
    action. *)
Definition ended : error :=
  Error "Cannot use a pool after calling end on the pool".

Definition closed : World := {|
  isFull := false;
  connect := Some ended;
  release_given := false;
  client_query := fun _ text _ => Ok (VResult text);
  beginClient := None;
  queryClient := fun _ _ => [VNull; VResult "rows"];
  handler_returns := VUndefined;
  handler_throws := None;
  now := fun n => Z.of_nat n
|}.

(** As [s2_fails], with a handler of the caller that throws. *)
Definition thrown : error := Error "handler failed".

Definition s2_fails_handler_throws : World := {|
  isFull := false;
  connect := None;
  release_given := true;
  client_query := fun _ text _ =>
    if String.eqb text "S2" then Fail boom else Ok (VResult text);
  beginClient := None;
  queryClient := fun _ _ => [VNull; VResult "rows"];
  handler_returns := VUndefined;
  handler_throws := Some thrown;
  now := fun n => Z.of_nat n
|}.

(** As [calm], with a handler of the caller that throws. *)
Definition calm_handler_throws : World := {|
  isFull := false;
  connect := None;
  release_given := true;
  client_query := fun _ text _ => Ok (VResult text);
  beginClient := None;
  queryClient := fun _ _ => [VNull; VResult "rows"];
  handler_returns := VUndefined;
  handler_throws := Some thrown;
  now := fun n => Z.of_nat n
|}.

(** The pool is at capacity. *)
Definition crowded : World := {|
  isFull := true;
  connect := None;
  release_given := true;
  client_query := fun _ text _ => Ok (VResult text);
  beginClient := None;
  queryClient := fun _ _ => [VNull; VResult "rows"];
  handler_returns := VUndefined;
  handler_throws := None;
  now := fun n => Z.of_nat n
|}.

(** The pool admits the request but hands out no connection. *)
Definition unreachable : World := {|
  isFull := false;
  connect := Some lost;
  release_given := true;
  client_query := fun _ text _ => Ok (VResult text);
  beginClient := None;
  queryClient := fun _ _ => [VNull; VResult "rows"];
  handler_returns := VUndefined;
  handler_throws := None;
  now := fun n => Z.of_nat n
|}.

End Adapter.

(** ** The constructor's pool options *)

Module Config.

(** The three properties of [this._config] the constructor fills in: each
    holds a number or is absent.  The other properties are not touched. *)
Record config := Build {
  idleTimeoutMillis : option Z;
  connectionTimeoutMillis : option Z;
  max : option Z
}.

(** [x || d] on such a property: [undefined] and [0] are falsy. *)
Definition or_default (x : option Z) (d : Z) : option Z :=
  match x with
  | Some n => if Z.eqb n 0 then Some d else Some n
  | None => Some d
  end.

(** Lines 14 to 16 of the constructor. *)
Definition fill_defaults (cfg : config) : config :=
  {| idleTimeoutMillis := or_default (idleTimeoutMillis cfg) 30000;
     connectionTimeoutMillis := or_default (connectionTimeoutMillis cfg) 30000;
     max := or_default (max cfg) 100 |}.

End Config.

(** ** Further readings of a trace, and of a string of statements *)

Module Observe.

Import Adapter.

(** The validation at the head of [query], as one test. *)
Definition valid_query_call (arguments : list value) : bool :=
  (3 <=? length arguments)
  && is_array (nth 1 arguments VUndefined)
  && is_function (nth 2 arguments VUndefined).

(** The statements handed to [this.db.log], with their parameters. *)
Fixpoint logs_of (tr : list event) : list (string * list value) :=
  match tr with
  | [] => []
  | DbLog query params _ :: rest => (query, params) :: logs_of rest
  | _ :: rest => logs_of rest
  end.

(** The messages handed to [this.db.info] and to [this.db.error]. *)
Fixpoint infos_of (tr : list event) : list string :=
  match tr with
  | [] => []
  | DbInfo msg :: rest => msg :: infos_of rest
  | _ :: rest => infos_of rest
  end.

Fixpoint errors_of (tr : list event) : list string :=
  match tr with
  | [] => []
  | DbError msg :: rest => msg :: errors_of rest
  | _ :: rest => errors_of rest
  end.

(** The calls of [this.beginClient] and [this.queryClient]. *)
Fixpoint begins (tr : list event) : nat :=
  match tr with
  | [] => 0
  | BeginClient :: rest => S (begins rest)
  | _ :: rest => begins rest
  end.

(** The character [;]. *)
Definition semicolon : Ascii.ascii := Eval cbv in Ascii.ascii_of_nat 59.

(** A string without its semicolons, and the pieces of a list put end to
    end. *)
Fixpoint without_semicolons (s : string) : string :=
  match s with
  | EmptyString => EmptyString
  | String c s' =>
      if Ascii.eqb c semicolon then without_semicolons s'
      else String c (without_semicolons s')
  end.

Fixpoint glue (l : list string) : string :=
  match l with
  | [] => EmptyString
  | x :: rest => x +:+ glue rest
  end.

(** A reference without the separator [__]. *)
Definition plain (columnName : string) : bool :=
  Nat.eqb (length (Js.split "__" columnName)) 1.

(** Two order specs that differ at most in [escapedColumns]. *)
Definition same_spec (v v' : OrderBy.orderObj) : Prop :=
  OrderBy.columnNames v = OrderBy.columnNames v'
  /\ OrderBy.direction v = OrderBy.direction v'
  /\ OrderBy.transformation v = OrderBy.transformation v'.

(** The fragment made of a list of terms. *)
Definition render (terms : list string) : string :=
  match terms with
  | [] => ""
  | _ :: _ => " ORDER BY " +:+ Js.join ", " terms
  end.

(** The terms of the order specs of an array that keep a resolved column. *)
Definition terms_of (escapeField : string -> string) (table : string)
    (joinArray : option (list (list OrderBy.join_entry)))
    (h : OrderBy.heap) (refs : list nat) : list string :=
  map (OrderBy.term_of escapeField table joinArray)
      (List.filter (OrderBy.survives escapeField table joinArray)
                   (OrderBy.specs_of h refs)).

(** The pool hands out a connection, but the [BEGIN] of the batch fails. *)
Definition begin_fails : World := {|
  isFull := false;
  connect := None;
  release_given := true;
  client_query := fun _ text _ =>
    if String.eqb text "BEGIN" then Fail lost else Ok (VResult text);
  beginClient := Some lost;
  queryClient := fun _ _ => [VError boom];
  handler_returns := VUndefined;
  handler_throws := None;
  now := fun n => Z.of_nat n
|}.

End Observe.

(** * Properties *)

(** ** Strings *)

Lemma append_nil_l (s : string) : "" +:+ s = s.
Proof. reflexivity. Qed.

Lemma append_cons (c : Ascii.ascii) (a b : string) :
  String c a +:+ b = String c (a +:+ b).
Proof. reflexivity. Qed.

Lemma append_assoc (a b c : string) : (a +:+ b) +:+ c = a +:+ (b +:+ c).
Proof.
  induction a as [|x a IH]; [reflexivity |].
  rewrite !append_cons. now rewrite IH.
Qed.

Lemma append_empty_r (a : string) : a +:+ "" = a.
Proof.
  induction a as [|x a IH]; [reflexivity |].
  rewrite append_cons. now rewrite IH.
Qed.

Lemma append_snoc (a : string) (c : Ascii.ascii) (s : string) :
  (a +:+ String c "") +:+ s = a +:+ String c s.
Proof. now rewrite append_assoc. Qed.

Lemma length_append (a b : string) :
  String.length (a +:+ b) = String.length a + String.length b.
Proof.
  induction a as [|x a IH]; [reflexivity |].
  rewrite append_cons. simpl. now rewrite IH.
Qed.

Lemma is_prefix_spec (p s : string) :
  Js.is_prefix p s = true <-> exists r, s = p +:+ r.
Proof.
  revert s. induction p as [|a p IH]; intros s; simpl.
  - split; [intros _; now exists s | reflexivity].
  - destruct s as [|b s].
    + split; [discriminate | intros [r Hr]; discriminate].
    + destruct (Ascii.eqb a b) eqn:E.
      * apply Ascii.eqb_eq in E as ->. rewrite IH.
        split; intros [r Hr]; exists r.
        -- rewrite append_cons. now rewrite Hr.
        -- rewrite append_cons in Hr. now injection Hr.
      * apply Ascii.eqb_neq in E.
        split; [discriminate | intros [r Hr]].
        rewrite append_cons in Hr. congruence.
Qed.

Lemma split_aux_skip (sep p acc rest : string) :
  Js.split_aux sep (String.length p) acc (p +:+ rest) = Js.split_aux sep 0 acc rest
  \/ (rest = "" /\ Js.split_aux sep (String.length p) acc (p +:+ rest) = [acc]).
Proof.
  induction p as [|c p IH]; simpl.
  - now left.
  - exact IH.
Qed.

(** When the skip counter runs out exactly at the end of the subject, the
    scan at position [0] of the empty rest gives the same single piece. *)
Lemma split_aux_skip_eq (sep p acc rest : string) :
  Js.split_aux sep (String.length p) acc (p +:+ rest) = Js.split_aux sep 0 acc rest.
Proof.
  destruct (split_aux_skip sep p acc rest) as [H | [-> H]]; [exact H |].
  rewrite H. reflexivity.
Qed.

Lemma split_aux_match (c : Ascii.ascii) (sep' acc rest : string) :
  Js.split_aux (String c sep') 0 acc (String c sep' +:+ rest)
  = acc :: Js.split_aux (String c sep') 0 "" rest.
Proof.
  simpl. rewrite Ascii.eqb_refl.
  assert (Js.is_prefix sep' (sep' +:+ rest) = true) as ->
    by (apply is_prefix_spec; now exists rest).
  rewrite Nat.sub_0_r. now rewrite split_aux_skip_eq.
Qed.

Lemma split_aux_step (sep acc : string) (c : Ascii.ascii) (s : string) :
  Js.is_prefix sep (String c s) = false ->
  Js.split_aux sep 0 acc (String c s) = Js.split_aux sep 0 (acc +:+ String c "") s.
Proof. intros H. simpl Js.split_aux. now rewrite H. Qed.

Lemma split_aux_cases (sep acc s : string) :
  sep <> "" ->
  (s = "" /\ Js.split_aux sep 0 acc s = [acc])
  \/ (exists rest, s = sep +:+ rest /\
        Js.split_aux sep 0 acc s = acc :: Js.split_aux sep 0 "" rest)
  \/ (exists c s', s = String c s' /\ Js.is_prefix sep s = false /\
        Js.split_aux sep 0 acc s = Js.split_aux sep 0 (acc +:+ String c "") s').
Proof.
  intros Hsep. destruct s as [|c s]; [now left | right].
  destruct (Js.is_prefix sep (String c s)) eqn:E.
  - left. apply is_prefix_spec in E as [rest Hr]. exists rest. split; [exact Hr |].
    rewrite Hr. destruct sep as [|a sep']; [congruence |]. apply split_aux_match.
  - right. exists c, s.
    split; [reflexivity | split; [reflexivity | now apply split_aux_step]].
Qed.

Lemma split_aux_nonempty (sep acc s : string) (k : nat) :
  Js.split_aux sep k acc s <> [].
Proof.
  revert k acc. induction s as [|c s IH]; intros k acc; simpl; [discriminate |].
  destruct k; [destruct (Js.is_prefix sep (String c s)); [discriminate |] |]; apply IH.
Qed.

Lemma join_cons (sep x : string) (l : list string) :
  l <> [] -> Js.join sep (x :: l) = x +:+ sep +:+ Js.join sep l.
Proof. destruct l; [congruence | reflexivity]. Qed.

(** Joining the pieces with the separator gives the subject back. *)
Lemma join_split_aux (sep : string) :
  sep <> "" ->
  forall n s acc, String.length s <= n ->
    Js.join sep (Js.split_aux sep 0 acc s) = acc +:+ s.
Proof.
  intros Hsep. induction n as [|n IH]; intros s acc Hn.
  - destruct s; [simpl; now rewrite append_empty_r | simpl in Hn; lia].
  - destruct (split_aux_cases sep acc s Hsep)
      as [[-> H] | [(rest & -> & H) | (c & s' & -> & _ & H)]]; rewrite H.
    + simpl. now rewrite append_empty_r.
    + rewrite join_cons by apply split_aux_nonempty.
      rewrite IH; [reflexivity |].
      rewrite length_append in Hn. destruct sep; [congruence | simpl in Hn; lia].
    + rewrite IH by (simpl in Hn; lia). apply append_snoc.
Qed.

Lemma join_split (sep s : string) :
  sep <> "" -> Js.join sep (Js.split sep s) = s.
Proof. intros H. unfold Js.split. now rewrite (join_split_aux sep H (String.length s)). Qed.

Lemma occurs_here (sep rest : string) : Js.occurs sep (sep +:+ rest).
Proof. now exists "", rest. Qed.

Lemma occurs_empty (sep : string) : sep <> "" -> ~ Js.occurs sep "".
Proof.
  intros Hsep (a & b & H). destruct a as [|x a]; [| discriminate].
  destruct sep; [congruence | discriminate].
Qed.

Lemma occurs_cons (sep : string) (c : Ascii.ascii) (s : string) :
  Js.is_prefix sep (String c s) = false ->
  Js.occurs sep (String c s) <-> Js.occurs sep s.
Proof.
  intros Hp. split; intros (a & b & H).
  - destruct a as [|x a].
    + rewrite append_nil_l in H.
      assert (Js.is_prefix sep (String c s) = true)
        by (apply is_prefix_spec; now exists b).
      congruence.
    + rewrite append_cons in H. injection H as _ H. now exists a, b.
  - exists (String c a), b. rewrite append_cons. now rewrite H.
Qed.

(** A subject splits into a single piece exactly when the separator does not
    occur in it. *)
Lemma split_aux_length_one (sep : string) :
  sep <> "" ->
  forall n s acc, String.length s <= n ->
    length (Js.split_aux sep 0 acc s) = 1 <-> ~ Js.occurs sep s.
Proof.
  intros Hsep. induction n as [|n IH]; intros s acc Hn.
  - destruct s; [| simpl in Hn; lia].
    split; [intros _; now apply occurs_empty | reflexivity].
  - destruct (split_aux_cases sep acc s Hsep)
      as [[-> H] | [(rest & -> & H) | (c & s' & -> & Hp & H)]]; rewrite H.
    + split; [intros _; now apply occurs_empty | reflexivity].
    + split.
      * simpl. intros Hl.
        destruct (Js.split_aux sep 0 "" rest) eqn:E; [| simpl in Hl; lia].
        now apply split_aux_nonempty in E.
      * intros Hno. destruct Hno. apply occurs_here.
    + rewrite IH by (simpl in Hn; lia). now rewrite occurs_cons.
Qed.

Lemma split_length_one (sep s : string) :
  sep <> "" -> length (Js.split sep s) = 1 <-> ~ Js.occurs sep s.
Proof. intros H. apply (split_aux_length_one sep H (String.length s)). lia. Qed.

Lemma split_nonempty (sep s : string) : Js.split sep s <> [].
Proof. apply split_aux_nonempty. Qed.

Lemma join_init_last (sep : string) (l : list string) :
  2 <= length l ->
  Js.join sep l = Js.join sep (Js.slice_init l) +:+ sep +:+ Js.last_elt l.
Proof.
  unfold Js.slice_init, Js.last_elt.
  induction l as [|x l IH]; intros Hl; [simpl in Hl; lia |].
  destruct l as [|y l]; [simpl in Hl; lia |].
  destruct l as [|z l]; [reflexivity |].
  rewrite join_cons by discriminate.
  rewrite IH by (simpl; lia).
  change (removelast (x :: y :: z :: l)) with (x :: removelast (y :: z :: l)).
  change (List.last (x :: y :: z :: l) "undefined")
    with (List.last (y :: z :: l) "undefined").
  rewrite join_cons by (simpl; destruct l; discriminate).
  now rewrite !append_assoc.
Qed.

Lemma append_snoc_inv (acc a b : string) (c : Ascii.ascii) :
  acc +:+ String c "" = a +:+ b -> b <> "" ->
  exists b0, b = b0 +:+ String c "" /\ acc = a +:+ b0.
Proof.
  revert acc. induction a as [|x a IH]; intros acc H Hb.
  - exists acc. now rewrite append_nil_l in H.
  - destruct acc as [|y acc]; rewrite !append_cons in H; injection H as -> H.
    + destruct a; [destruct b; [congruence | discriminate] | discriminate].
    + destruct (IH acc H Hb) as (b0 & -> & ->). exists b0.
      now rewrite append_cons.
Qed.

Lemma no_match_inside_free (sep acc s : string) :
  sep <> "" -> Js.no_match_inside sep acc s ->
  (s = "" \/ Js.is_prefix sep s = true) -> ~ Js.occurs sep acc.
Proof.
  intros Hsep Hin Hs (a & b & Hacc).
  assert (sep +:+ b <> "") as Hne by (destruct sep; [congruence | discriminate]).
  pose proof (Hin a (sep +:+ b) Hacc Hne) as Hfalse.
  assert (Js.is_prefix sep ((sep +:+ b) +:+ s) = true) as Htrue.
  { apply is_prefix_spec. exists (b +:+ s). apply append_assoc. }
  congruence.
Qed.

(** The pieces of a split are free of the separator. *)
Lemma split_aux_pieces (sep : string) :
  sep <> "" ->
  forall n s acc, String.length s <= n -> Js.no_match_inside sep acc s ->
    Forall (fun piece => ~ Js.occurs sep piece) (Js.split_aux sep 0 acc s).
Proof.
  intros Hsep. induction n as [|n IH]; intros s acc Hn Hin.
  - destruct s; [| simpl in Hn; lia].
    repeat constructor. apply (no_match_inside_free sep acc ""); auto.
  - destruct (split_aux_cases sep acc s Hsep)
      as [[-> H] | [(rest & -> & H) | (c & s' & -> & Hp & H)]]; rewrite H.
    + repeat constructor. apply (no_match_inside_free sep acc ""); auto.
    + constructor.
      * apply (no_match_inside_free sep acc (sep +:+ rest)); auto.
        right. apply is_prefix_spec. now exists rest.
      * apply IH.
        -- rewrite length_append in Hn. destruct sep; [congruence | simpl in Hn; lia].
        -- intros a b Hab Hb. destruct a; [| discriminate].
           rewrite append_nil_l in Hab. congruence.
    + apply IH; [simpl in Hn; lia |].
      intros a b Hab Hb.
      destruct (append_snoc_inv acc a b c Hab Hb) as (b0 & -> & ->).
      rewrite append_snoc. destruct b0 as [|y b0].
      * exact Hp.
      * apply (Hin a (String y b0)); [reflexivity | discriminate].
Qed.

Lemma split_pieces (sep s : string) :
  sep <> "" -> Forall (fun piece => ~ Js.occurs sep piece) (Js.split sep s).
Proof.
  intros Hsep. apply (split_aux_pieces sep Hsep (String.length s)); [lia |].
  intros a b Hab Hb. destruct a; [| discriminate].
  rewrite append_nil_l in Hab. congruence.
Qed.

Lemma last_elt_in (l : list string) : l <> [] -> In (Js.last_elt l) l.
Proof.
  unfold Js.last_elt. induction l as [|x l IH]; [congruence | intros _].
  destruct l as [|y l]; [now left |].
  right. apply IH. discriminate.
Qed.

(** The trailing segment of a reference holds no separator. *)
Lemma split_last_free (s : string) :
  ~ Js.occurs "__" (Js.last_elt (Js.split "__" s)).
Proof.
  pose proof (split_pieces "__" s ltac:(discriminate)) as Hall.
  rewrite List.Forall_forall in Hall. apply Hall.
  apply last_elt_in, split_nonempty.
Qed.

(** A namespaced reference is its alias chain, the separator and its trailing
    segment. *)
Lemma split_chain_last (s : string) :
  Js.occurs "__" s ->
  s = Js.join "__" (Js.slice_init (Js.split "__" s)) +:+ "__"
        +:+ Js.last_elt (Js.split "__" s).
Proof.
  intros Ho.
  assert (2 <= length (Js.split "__" s)) as Hl.
  { pose proof (split_length_one "__" s ltac:(discriminate)) as H1.
    pose proof (split_nonempty "__" s) as H2.
    destruct (Js.split "__" s) as [|x [|y l]]; [congruence | | simpl; lia].
    exfalso. apply H1; [reflexivity | exact Ho]. }
  rewrite <- join_init_last by exact Hl.
  symmetry. apply join_split. discriminate.
Qed.

(** ** The order-by clause builder *)

Example split_plain : Js.split "__" "name" = ["name"].
Proof. reflexivity. Qed.

Example split_namespaced : Js.split "__" "profile__bio" = ["profile"; "bio"].
Proof. reflexivity. Qed.

Example split_three_underscores : Js.split "__" "a___b" = ["a"; "_b"].
Proof. reflexivity. Qed.

Example split_chain :
  Js.join "__" (Js.slice_init (Js.split "__" "owner__profile__bio")) = "owner__profile"
  /\ Js.last_elt (Js.split "__" "owner__profile__bio") = "bio".
Proof. split; reflexivity. Qed.

Import OrderBy.

Section OrderByFacts.

Variable escapeField : string -> string.
Variable table : string.
Variable joinArray : option (list (list join_entry)).

Lemma find_first {A} (p : A -> bool) (l : list A) (x : A) :
  List.find p l = Some x <->
  exists pre post, l = pre ++ x :: post /\ p x = true /\
                   Forall (fun e => p e = false) pre.
Proof.
  induction l as [|y l IH]; simpl.
  - split; [discriminate | intros (pre & post & H & _)].
    destruct pre; discriminate.
  - destruct (p y) eqn:E.
    + split.
      * intros [= ->]. exists [], l. repeat split; [exact E | constructor].
      * intros (pre & post & H & Hx & Hpre).
        destruct pre as [|z pre]; simpl in H; injection H as -> H; [reflexivity |].
        apply Forall_cons in Hpre as [Hz _]. congruence.
    + rewrite IH. split; intros (pre & post & H & Hx & Hpre).
      * exists (y :: pre), post.
        repeat split; [simpl; now rewrite H | exact Hx | now constructor].
      * destruct pre as [|z pre]; simpl in H; injection H as -> H; [congruence |].
        apply Forall_cons in Hpre as [_ Hpre]. now exists pre, post.
Qed.

Lemma find_app_first {A} (p : A -> bool) (l1 l2 : list A) :
  List.find p (l1 ++ l2) =
  match List.find p l1 with Some x => Some x | None => List.find p l2 end.
Proof.
  induction l1 as [|y l1 IH]; simpl; [reflexivity |].
  now destruct (p y).
Qed.

(** The search over the groups is a left-to-right search of their entries. *)
Lemma every_find_concat (chain : string) (groups : list (list join_entry)) :
  every_find chain groups
  = List.find (fun join => String.eqb (joinAlias join) chain) (concat groups).
Proof.
  induction groups as [|g groups IH]; simpl; [reflexivity |].
  rewrite find_app_first, IH. reflexivity.
Qed.

Lemma every_find_first (chain : string) (groups : list (list join_entry)) (j : join_entry) :
  first_match chain groups j <-> every_find chain groups = Some j.
Proof.
  rewrite every_find_concat, find_first. unfold first_match.
  split; intros (pre & post & H & Hj & Hpre); exists pre, post;
    (split; [exact H |]); split.
  - now apply String.eqb_eq.
  - eapply Forall_impl; [exact Hpre |]. intros e He. now apply String.eqb_neq.
  - now apply String.eqb_eq.
  - eapply Forall_impl; [exact Hpre |]. intros e He. now apply String.eqb_neq.
Qed.

Lemma every_find_none (chain : string) (groups : list (list join_entry)) :
  no_match chain groups <-> every_find chain groups = None.
Proof.
  rewrite every_find_concat. unfold no_match.
  induction (concat groups) as [|e l IH]; simpl.
  - split; [reflexivity | constructor].
  - destruct (String.eqb (joinAlias e) chain) eqn:E.
    + apply String.eqb_eq in E.
      split; [intros H; apply Forall_cons in H as [H _]; congruence | discriminate].
    + apply String.eqb_neq in E. rewrite <- IH.
      split; [intros H; now apply Forall_cons in H as [_ H] | now constructor].
Qed.

Lemma qualified_truthy (a b : string) :
  truthy (Some (qualified escapeField a b)) = true.
Proof.
  unfold qualified. simpl.
  destruct (escapeField a); reflexivity.
Qed.

Lemma escapeColumn_truthy (columnName c : string) :
  escapeColumn escapeField table joinArray columnName = Some c ->
  truthy (Some c) = true.
Proof.
  unfold escapeColumn.
  destruct (Nat.eqb _ 1); [intros [= <-]; apply qualified_truthy |].
  destruct joinArray as [groups|]; [| discriminate].
  destruct (every_find _ groups); intros [= <-]; apply qualified_truthy.
Qed.

(** Filtering the resolved columns removes the dropped references and
    nothing else. *)
Lemma resolveColumns_omap (names : list string) :
  resolveColumns escapeField table joinArray names
  = omap (escapeColumn escapeField table joinArray) names.
Proof.
  unfold resolveColumns.
  induction names as [|n names IH]; [reflexivity |].
  cbn [map omap list_omap filter_truthy].
  destruct (escapeColumn escapeField table joinArray n) as [c|] eqn:E.
  - rewrite (escapeColumn_truthy _ _ E). cbn. now rewrite IH.
  - cbn. exact IH.
Qed.

Lemma resolveColumns_resolved (v : orderObj) :
  resolveColumns escapeField table joinArray (columnNames v)
  = resolved escapeField table joinArray v.
Proof. apply resolveColumns_omap. Qed.

End OrderByFacts.

Section BuilderRun.

Variable escapeField : string -> string.
Variable table : string.
Variable joinArray : option (list (list join_entry)).

#[local] Abbreviation escaped := (escaped escapeField table joinArray).
#[local] Abbreviation resolved := (resolved escapeField table joinArray).
#[local] Abbreviation store_after := (store_after escapeField table joinArray).

Lemma map_escape_run (refs : list nat) (h : heap) :
  all_objects h refs ->
  exists h', map_escape escapeField table joinArray refs h = (Normal refs, h')
             /\ store_after h h' refs.
Proof.
  revert h. induction refs as [|r refs IH]; intros h Hall.
  - exists h. split; [reflexivity |]. intros x. reflexivity.
  - apply Forall_cons in Hall as [[v Hv] Hall].
    set (h1 := <[r := escaped v]> h).
    destruct (IH h1) as (h' & Hrun & Hst).
    { eapply Forall_impl; [exact Hall |]. intros x Hx. unfold h1.
      rewrite lookup_insert. case_decide; [eauto | exact Hx]. }
    exists h'. split.
    + cbn [map_escape]. unfold bind, read, write. rewrite Hv.
      rewrite resolveColumns_resolved. fold (escaped v). fold h1.
      now rewrite Hrun.
    + intros x. rewrite (Hst x). unfold h1.
      destruct (decide (x = r)) as [-> | Hne].
      * rewrite lookup_insert_eq, Hv.
        rewrite (bool_decide_eq_true_2 (r ∈ r :: refs)) by set_solver.
        case_bool_decide; reflexivity.
      * rewrite lookup_insert_ne by congruence.
        destruct (decide (x ∈ refs)) as [Hin | Hnin].
        -- rewrite !bool_decide_eq_true_2 by set_solver. reflexivity.
        -- rewrite (bool_decide_eq_false_2 (x ∈ refs)) by exact Hnin.
           rewrite bool_decide_eq_false_2; [reflexivity |].
           intros [Heq | Hin]%elem_of_cons; contradiction.
Qed.

Lemma kept_terms (h h' : heap) (all refs : list nat) :
  store_after h h' all -> all_objects h refs -> refs ⊆ all ->
  map (term h') (filter_nonempty h' refs)
  = map (term_of escapeField table joinArray)
        (List.filter (survives escapeField table joinArray)
                     (specs_of h refs)).
Proof.
  intros Hst. induction refs as [|r refs IH]; intros Hall Hsub; [reflexivity |].
  apply Forall_cons in Hall as [[v Hv] Hall].
  assert (h' !! r = Some (escaped v)) as Hv'.
  { rewrite (Hst r). rewrite bool_decide_eq_true_2 by set_solver. now rewrite Hv. }
  assert (escaped_of h' r = resolved v) as Hesc.
  { unfold escaped_of. now rewrite Hv'. }
  unfold specs_of. cbn [omap list_omap filter_nonempty List.filter].
  rewrite Hv. cbn [List.filter]. rewrite Hesc.
  unfold survives at 1. fold (specs_of h refs).
  destruct (resolved v) as [|c cs] eqn:E.
  - cbn. apply IH; [exact Hall | set_solver].
  - cbn [length Nat.eqb negb map]. f_equal.
    + unfold term, term_of. rewrite Hv', Hesc. cbn. now rewrite E.
    + apply IH; [exact Hall | set_solver].
Qed.

(** The references that pass the filter on [escapedColumns.length]. *)
Lemma kept_refs (h h' : heap) (all refs : list nat) :
  store_after h h' all -> all_objects h refs -> refs ⊆ all ->
  filter_nonempty h' refs
  = List.filter
      (fun r => match h !! r with
                | Some v =>
                    negb (Nat.eqb
                            (length (resolveColumns escapeField table joinArray
                                       (columnNames v))) 0)
                | None => false
                end) refs.
Proof.
  intros Hst. induction refs as [|r refs IH]; intros Hall Hsub; [reflexivity |].
  apply Forall_cons in Hall as [[v Hv] Hall].
  assert (escaped_of h' r = resolved v) as Hesc.
  { unfold escaped_of. rewrite (Hst r).
    rewrite bool_decide_eq_true_2 by set_solver. now rewrite Hv. }
  cbn [filter_nonempty List.filter].
  rewrite Hv, Hesc, resolveColumns_resolved.
  fold (filter_nonempty h' refs). rewrite IH; [reflexivity | exact Hall | set_solver].
Qed.

(** The fragment and the store the builder ends with. *)
Lemma generateOrderByClause_run (refs : list nat) (groupByArray : list string)
    (h : heap) :
  all_objects h refs ->
  exists h',
    generateOrderByClause escapeField table refs groupByArray joinArray h
    = (Normal (clause escapeField table joinArray " ORDER BY " (specs_of h refs)), h')
    /\ store_after h h' refs.
Proof.
  intros Hall. destruct (map_escape_run refs h Hall) as (h' & Hrun & Hst).
  exists h'. split; [| exact Hst].
  unfold generateOrderByClause, bind, get_heap, ret. rewrite Hrun. f_equal. f_equal.
  pose proof (kept_terms h h' refs refs Hst Hall ltac:(set_solver)) as Hk.
  unfold clause. rewrite Hk.
  assert (length (filter_nonempty h' refs)
          = length (List.filter (survives escapeField table joinArray)
                                (specs_of h refs))) as Hlen.
  { apply (f_equal length) in Hk. now rewrite !length_map in Hk. }
  rewrite Hlen.
  destruct (List.filter _ (specs_of h refs)); reflexivity.
Qed.

End BuilderRun.

(** C7 (column resolution).  A reference without the separator [__] is
    qualified with the base table.  A namespaced reference is its alias
    chain, the separator and its trailing segment; with join groups at hand
    it is qualified with the first entry aliased by the chain, found by
    reading the groups in order, and the trailing segment, or, when no entry
    is aliased by the chain, with the base table and the whole reference;
    without join groups it resolves to nothing and is left out of the
    resolved columns.  The order specs that go on to the fragment are those
    with at least one resolved column. *)
Theorem order_by_resolution (escapeField : string -> string) (table : string)
    (joinArray : option (list (list join_entry))) :
  (forall columnName : string,
     let components := Js.split "__" columnName in
     let chain := Js.join "__" (Js.slice_init components) in
     let column := Js.last_elt components in
     (~ Js.occurs "__" columnName ->
        escapeColumn escapeField table joinArray columnName
        = Some (qualified escapeField table columnName))
     /\ (Js.occurs "__" columnName ->
           columnName = chain +:+ "__" +:+ column
           /\ ~ Js.occurs "__" column
           /\ match joinArray with
              | Some groups =>
                  (forall j, first_match chain groups j ->
                     joinAlias j = chain
                     /\ escapeColumn escapeField table joinArray columnName
                        = Some (qualified escapeField (joinAlias j) column))
                  /\ (no_match chain groups ->
                        escapeColumn escapeField table joinArray columnName
                        = Some (qualified escapeField table columnName))
              | None =>
                  escapeColumn escapeField table joinArray columnName = None
              end))
  /\ (forall names : list string,
        resolveColumns escapeField table joinArray names
        = omap (escapeColumn escapeField table joinArray) names)
  /\ (forall (refs : list nat) (h : heap),
        all_objects h refs ->
        exists h',
          map_escape escapeField table joinArray refs h = (Normal refs, h')
          /\ filter_nonempty h' refs
             = List.filter
                 (fun r =>
                    match h !! r with
                    | Some v =>
                        negb (Nat.eqb
                                (length (resolveColumns escapeField table joinArray
                                           (columnNames v))) 0)
                    | None => false
                    end) refs).
Proof.
  split; [| split].
  - intros columnName components chain column.
    pose proof (split_length_one "__" columnName ltac:(discriminate)) as Hone.
    fold components in Hone. split.
    + intros Hno. apply Hone in Hno. unfold escapeColumn.
      fold components. now rewrite Hno.
    + intros Hocc. split; [now apply split_chain_last |].
      split; [apply split_last_free |].
      assert (Nat.eqb (length components) 1 = false) as Hlen.
      { apply Nat.eqb_neq. intros Hl. now apply Hone in Hl. }
      unfold escapeColumn. fold components. rewrite Hlen. fold chain. fold column.
      destruct joinArray as [groups|]; [| reflexivity].
      split.
      * intros j Hj. split; [now destruct Hj as (? & ? & _ & ? & _) |].
        apply every_find_first in Hj. now rewrite Hj.
      * intros Hnone. apply every_find_none in Hnone. now rewrite Hnone.
  - apply resolveColumns_omap.
  - intros refs h Hall.
    destruct (map_escape_run escapeField table joinArray refs h Hall)
      as (h' & Hrun & Hst).
    exists h'. split; [exact Hrun |].
    apply (kept_refs escapeField table joinArray h h' refs refs Hst Hall).
    reflexivity.
Qed.

(** The resolution at work: a plain column, a joined column found in the
    second group, a namespaced column with no alias, and one without join
    groups. *)
Lemma order_by_resolution_witness :
  escapeColumn escapeField_pg "users" (Some two_groups) "name"
    = Some (qualified escapeField_pg "users" "name")
  /\ escapeColumn escapeField_pg "users" (Some two_groups) "profile__bio"
    = Some (qualified escapeField_pg "profile" "bio")
  /\ escapeColumn escapeField_pg "users" (Some two_groups) "owner__bio"
    = Some (qualified escapeField_pg "users" "owner__bio")
  /\ escapeColumn escapeField_pg "users" None "profile__bio" = None
  /\ filter_nonempty
       (snd (map_escape escapeField_pg "users" None [0; 1]
               (<[1 := by_bio]> (<[0 := OrderObj ["profile__bio"] "ASC" None None]> ∅))))
       [0; 1]
     = [1].
Proof.
  assert (Js.occurs "__" "profile__bio") as Hbio by (now exists "profile", "bio").
  assert (Js.occurs "__" "owner__bio") as Hown by (now exists "owner", "bio").
  split; [| split; [| split; [| split]]].
  - destruct (order_by_resolution escapeField_pg "users" (Some two_groups))
      as [Hcol _].
    destruct (Hcol "name") as [Hplain _]. apply Hplain.
    apply (proj1 (split_length_one "__" "name" ltac:(discriminate))).
    reflexivity.
  - destruct (order_by_resolution escapeField_pg "users" (Some two_groups))
      as [Hcol _].
    destruct (Hcol "profile__bio") as [_ Hns].
    destruct (Hns Hbio) as (_ & _ & Hfound & _).
    apply (Hfound (Join "profile")).
    exists [Join "account"], []. split; [reflexivity | split; [reflexivity |]].
    constructor; [discriminate | constructor].
  - destruct (order_by_resolution escapeField_pg "users" (Some two_groups))
      as [Hcol _].
    destruct (Hcol "owner__bio") as [_ Hns].
    destruct (Hns Hown) as (_ & _ & _ & Hnone).
    apply Hnone. repeat constructor; discriminate.
  - destruct (order_by_resolution escapeField_pg "users" None) as [Hcol _].
    destruct (Hcol "profile__bio") as [_ Hns].
    exact (proj2 (proj2 (Hns Hbio))).
  - destruct (order_by_resolution escapeField_pg "users" None) as [_ [_ Hkept]].
    destruct (Hkept [0; 1]
                (<[1 := by_bio]> (<[0 := OrderObj ["profile__bio"] "ASC" None None]> ∅)))
      as (h' & Hrun & Hf).
    + repeat constructor; eexists; vm_compute; reflexivity.
    + rewrite Hrun. cbn [snd]. rewrite Hf. vm_compute. reflexivity.
Defined.

Section BuilderRerun.

Variable escapeField : string -> string.
Variable table : string.
Variable joinArray : option (list (list join_entry)).

Lemma specs_of_after (h h' : heap) (all refs : list nat) :
  store_after escapeField table joinArray h h' all ->
  all_objects h refs -> refs ⊆ all ->
  specs_of h' refs = map (escaped escapeField table joinArray) (specs_of h refs)
  /\ all_objects h' refs.
Proof.
  intros Hst. induction refs as [|r refs IH]; intros Hall Hsub.
  - split; [reflexivity | constructor].
  - apply Forall_cons in Hall as [[v Hv] Hall].
    destruct IH as [IH1 IH2]; [exact Hall | set_solver |].
    assert (h' !! r = Some (escaped escapeField table joinArray v)) as Hv'.
    { rewrite (Hst r). rewrite bool_decide_eq_true_2 by set_solver. now rewrite Hv. }
    split.
    + unfold specs_of. cbn [omap list_omap]. rewrite Hv, Hv'. cbn.
      f_equal. exact IH1.
    + constructor; [eauto | exact IH2].
Qed.

Lemma clause_escaped (prefix : string) (vs : list orderObj) :
  clause escapeField table joinArray prefix
    (map (escaped escapeField table joinArray) vs)
  = clause escapeField table joinArray prefix vs.
Proof.
  unfold clause.
  assert (map (term_of escapeField table joinArray)
            (List.filter (survives escapeField table joinArray)
               (map (escaped escapeField table joinArray) vs))
          = map (term_of escapeField table joinArray)
              (List.filter (survives escapeField table joinArray) vs)) as Hm.
  { induction vs as [|v vs IH]; [reflexivity |].
    cbn [map List.filter].
    change (survives escapeField table joinArray
              (escaped escapeField table joinArray v))
      with (survives escapeField table joinArray v).
    destruct (survives escapeField table joinArray v); [| exact IH].
    cbn [map]. now rewrite IH. }
  destruct (List.filter _ (map _ vs)) as [|a l] eqn:E1;
    destruct (List.filter _ vs) as [|b m] eqn:E2;
    try discriminate; [reflexivity |].
  now rewrite Hm.
Qed.

(** A second run over the store the first one left behind. *)
Lemma generateOrderByClause_again (refs : list nat) (groupByArray : list string)
    (h h' : heap) (fragment : string) :
  all_objects h refs ->
  generateOrderByClause escapeField table refs groupByArray joinArray h
  = (Normal fragment, h') ->
  store_after escapeField table joinArray h h' refs ->
  generateOrderByClause escapeField table refs groupByArray joinArray h'
  = (Normal fragment, h').
Proof.
  intros Hall Hrun Hst.
  destruct (generateOrderByClause_run escapeField table joinArray refs
              groupByArray h Hall) as (h1 & Hrun1 & _).
  rewrite Hrun1 in Hrun. injection Hrun as <- ->.
  destruct (specs_of_after h h' refs refs Hst Hall ltac:(reflexivity))
    as [Hspecs Hall'].
  destruct (generateOrderByClause_run escapeField table joinArray refs
              groupByArray h' Hall') as (h2 & Hrun2 & Hst2).
  rewrite Hrun2, Hspecs, clause_escaped. f_equal.
  apply map_eq. intros x. rewrite (Hst2 x), (Hst x).
  case_bool_decide; [| reflexivity].
  destruct (h !! x); reflexivity.
Qed.

End BuilderRerun.

(** C8, on the specification's example: the fragment does not start with
    the keyword, so it is not the string [ORDER BY "users"."name" ASC]. *)
Lemma order_by_fragment_counterexample :
  fst (generateOrderByClause escapeField_pg "users" [0] [] None one_spec)
  <> Normal ("ORDER BY " +:+ dquote +:+ "users" +:+ dquote +:+ "."
             +:+ dquote +:+ "name" +:+ dquote +:+ " ASC").
Proof. vm_compute. discriminate. Qed.

(** C8 (amended).  The fragment is the empty string when no order spec keeps
    a resolved column; otherwise it is [ ORDER BY ], with a space before the
    keyword and one after it, followed by the terms of the order specs that
    are kept, joined with a comma and a space.  For the table [users], one
    spec on [name] with direction [ASC] and no joins, it is
    [ ORDER BY "users"."name" ASC] with its leading space. *)
Theorem order_by_fragment :
  (forall (escapeField : string -> string) (table : string)
          (joinArray : option (list (list join_entry))) (refs : list nat)
          (groupByArray : list string) (h : heap),
     all_objects h refs ->
     let kept :=
       List.filter (survives escapeField table joinArray) (specs_of h refs) in
     fst (generateOrderByClause escapeField table refs groupByArray joinArray h)
     = Normal
         (match kept with
          | [] => ""
          | _ :: _ =>
              " ORDER BY "
              +:+ Js.join ", " (map (term_of escapeField table joinArray) kept)
          end))
  /\ fst (generateOrderByClause escapeField_pg "users" [0] [] None one_spec)
     = Normal (" ORDER BY " +:+ dquote +:+ "users" +:+ dquote +:+ "."
               +:+ dquote +:+ "name" +:+ dquote +:+ " ASC").
Proof.
  split; [| reflexivity].
  intros escapeField table joinArray refs groupByArray h Hall kept.
  destruct (generateOrderByClause_run escapeField table joinArray refs
              groupByArray h Hall) as (h' & Hrun & _).
  rewrite Hrun. cbn [fst]. unfold clause. fold kept.
  destruct kept; reflexivity.
Qed.

(** Two order specs, one of them left without a resolved column. *)
Lemma order_by_fragment_witness :
  fst (generateOrderByClause escapeField_pg "users" [0; 1; 0] []
         (Some two_groups)
         (<[1 := OrderObj ["owner__bio"] "ASC" None None]> (<[0 := by_bio]> ∅)))
  = Normal (" ORDER BY " +:+ qualified escapeField_pg "profile" "bio" +:+ " DESC, "
            +:+ qualified escapeField_pg "users" "owner__bio" +:+ " ASC, "
            +:+ qualified escapeField_pg "profile" "bio" +:+ " DESC").
Proof.
  rewrite (proj1 order_by_fragment).
  - vm_compute. reflexivity.
  - repeat constructor; eexists; vm_compute; reflexivity.
Defined.

Example order_by_joined :
  fst (generateOrderByClause escapeField_pg "users" [0] [] (Some two_groups)
         {[ 0 := OrderObj ["profile__bio"] "DESC" None None ]})
  = Normal (" ORDER BY " +:+ dquote +:+ "profile" +:+ dquote +:+ "."
            +:+ dquote +:+ "bio" +:+ dquote +:+ " DESC").
Proof. reflexivity. Qed.

Example order_by_nothing :
  fst (generateOrderByClause escapeField_pg "users" [0] [] None
         {[ 0 := OrderObj ["profile__bio"] "DESC" None None ]})
  = Normal "".
Proof. reflexivity. Qed.

(** C9, on a store with one order spec: the builder writes the object's
    [escapedColumns], so the object is not what it was. *)
Lemma order_by_pure_counterexample :
  snd (generateOrderByClause escapeField_pg "users" [0] [] None one_spec)
  <> one_spec.
Proof.
  intros H. apply (f_equal (fun m : heap => escapedColumns <$> m !! 0)) in H.
  vm_compute in H. discriminate.
Qed.

(** C9 (amended).  Running the builder twice on the same table, array of
    order specs and join groups yields the same fragment, and the second
    run changes nothing; the first run leaves every object outside the
    array as it was and, on each order spec of the array, sets
    [escapedColumns] to its resolved columns and nothing else. *)
Theorem order_by_rerun (escapeField : string -> string) (table : string)
    (joinArray : option (list (list join_entry))) (refs : list nat)
    (groupByArray : list string) (h : heap) :
  all_objects h refs ->
  exists fragment h',
    generateOrderByClause escapeField table refs groupByArray joinArray h
    = (Normal fragment, h')
    /\ generateOrderByClause escapeField table refs groupByArray joinArray h'
       = (Normal fragment, h')
    /\ forall r,
         h' !! r
         = if bool_decide (r ∈ refs)
           then (fun v =>
                   set_escapedColumns v
                     (resolveColumns escapeField table joinArray (columnNames v)))
                  <$> h !! r
           else h !! r.
Proof.
  intros Hall.
  destruct (generateOrderByClause_run escapeField table joinArray refs
              groupByArray h Hall) as (h' & Hrun & Hst).
  eexists _, h'. split; [exact Hrun | split].
  - eapply generateOrderByClause_again; eauto.
  - intros r. rewrite (Hst r). case_bool_decide; [| reflexivity].
    destruct (h !! r) as [v|]; [| reflexivity].
    cbn. unfold escaped. now rewrite resolveColumns_resolved.
Qed.

Lemma order_by_rerun_witness :
  exists fragment h',
    generateOrderByClause escapeField_pg "users" [0] [] None one_spec
    = (Normal fragment, h')
    /\ generateOrderByClause escapeField_pg "users" [0] [] None h'
       = (Normal fragment, h')
    /\ forall r,
         h' !! r
         = if bool_decide (r ∈ [0])
           then (fun v =>
                   set_escapedColumns v
                     (resolveColumns escapeField_pg "users" None (columnNames v)))
                  <$> one_spec !! r
           else one_spec !! r.
Proof.
  apply (order_by_rerun escapeField_pg "users" None [0] [] one_spec).
  repeat constructor. eexists. vm_compute. reflexivity.
Defined.


(** ** The pooled operations *)

Import Adapter.

Lemma state_eta (s : state) : State (trace s) (issued s) (ticks s) = s.
Proof. now destruct s. Qed.

Lemma statement_task_run (w : World) (start : Z) (q : queryData) (s : state) :
  statement_task w start q s
  = (Normal (client_query w (issued s) (qd_query q) (qd_params q)),
     State (trace s ++ statement_events w start (ticks s) [q])
           (S (issued s)) (S (ticks s))).
Proof.
  unfold statement_task, bind, date_now, db_log, emit, clientQuery. cbn.
  now rewrite <- app_assoc.
Qed.

(** The series of statement tasks runs them in order up to the first
    failure, and gathers the results on the way. *)
Lemma series_from_run (w : World) (start : Z) (stmts : list queryData) :
  forall (results : list value) (s : state),
    series_from results (map (statement_task w start) stmts) s
    = let rs := responses w (issued s) stmts in
      let k := length (oks rs) in
      match failure rs with
      | None =>
          (Normal (None, results ++ oks rs),
           State (trace s ++ statement_events w start (ticks s) stmts)
                 (issued s + length stmts) (ticks s + length stmts))
      | Some e =>
          (Normal (Some e, results ++ oks rs ++ [VUndefined]),
           State (trace s ++ statement_events w start (ticks s) (take (S k) stmts))
                 (issued s + S k) (ticks s + S k))
      end.
Proof.
  induction stmts as [|q stmts IH]; intros results s.
  - cbn. rewrite !app_nil_r, !Nat.add_0_r. now rewrite state_eta.
  - cbn [map series_from]. unfold bind at 1. rewrite statement_task_run.
    cbn [responses failure oks].
    destruct (client_query w (issued s) (qd_query q) (qd_params q)) as [e|v].
    + cbn. now rewrite !Nat.add_1_r.
    + rewrite IH. cbn [issued ticks trace length].
      destruct (failure (responses w (S (issued s)) stmts)) as [e|].
      * cbn [take]. rewrite <- !app_assoc. cbn [app statement_events].
        rewrite !Nat.add_succ_r. reflexivity.
      * rewrite <- !app_assoc. cbn [app statement_events].
        rewrite !Nat.add_succ_r. reflexivity.
Qed.

Lemma call_handler (w : World) (callback : value) (args : list value) (s : state) :
  call w (if is_function callback then callback else VNoop) args s
  = (handler_end w callback,
     State (trace s ++ [handler_event callback args]) (issued s) (ticks s)).
Proof.
  destruct callback; try reflexivity.
  cbn. unfold bind, emit, handler_end. cbn.
  destruct (handler_throws w); reflexivity.
Qed.

Create HintDb js_run.
#[local] Hint Unfold bind date_now pool_isFull pool_connect db_info db_error
  db_log complete emit ret throw series clientQuery begin_client query_client
  : js_run.

Ltac run_steps :=
  repeat (progress (autounfold with js_run;
                    cbn [series_from init trace issued ticks app fst snd])).

(** A call of a handler that is a function: the caller's returns or throws. *)
Ltac run_call :=
  cbn; unfold bind, emit; cbn; try destruct (handler_throws _); cbn.

Ltac run_handler :=
  rewrite ?call_handler; run_steps;
  unfold handler_end, batch_end, after_handler, handler_throwing;
  match goal with
  | |- context [handler_event ?callback _] =>
      destruct callback; try destruct (handler_throws _)
  end;
  run_steps;
  eexists _, _; rewrite <- ?app_assoc; cbn [app]; reflexivity.

Lemma transaction_connected (w : World) (p : prepared) (callback : value) :
  prepared_length p <> 0 -> isFull w = false -> connect w = None ->
  exists n t,
    transaction w p callback init
    = (batch_end w callback,
       State (batch_events w callback (statements_of p)) n t).
Proof.
  intros Hlen Hfull Hconn. apply Nat.eqb_neq in Hlen.
  unfold transaction. rewrite Hlen. run_steps. rewrite Hfull, Hconn. run_steps.
  unfold batch_events, rollback_events, commit_events.
  cbn [responses BEGIN qd_query qd_params failure oks].
  destruct (client_query w 0 "BEGIN" None) as [e0|v0].
  - run_steps. cbn [length firstn statement_events app].
    destruct (client_query w 1 "ROLLBACK" None) as [err|v]; run_handler.
  - rewrite series_from_run. cbn [trace issued ticks length Nat.add].
    destruct (failure (responses w 1 (statements_of p))) as [e|]; run_steps.
    + destruct (client_query w _ "ROLLBACK" None) as [err|v]; run_handler.
    + destruct (client_query w _ "COMMIT" None) as [err|v]; run_handler.
Qed.

Example statements_from_string :
  statements_of (PreparedString "S1; S2;")
  = [QueryData "S1" None; QueryData " S2" None].
Proof. reflexivity. Qed.

Example batch_committed :
  trace_of (transaction calm (PreparedArray [S1; S2]) VFunction)
  = [PoolIsFull; PoolConnect; DbInfo "Transaction started...";
     ClientQuery "BEGIN" None;
     DbLog "S1" [] 1; ClientQuery "S1" None;
     DbLog "S2" [] 2; ClientQuery "S2" None;
     DbInfo "Commit started..."; ClientQuery "COMMIT" None;
     DbInfo "Commit complete!"; DbInfo "Transaction complete!";
     Complete;
     Callback [VNull; VArray [VResult "BEGIN"; VResult "S1"; VResult "S2"]]].
Proof. reflexivity. Qed.

Example query_answered :
  query calm [VString "SELECT 1"; VArray []; VFunction] init
  = (Normal VTrue,
     State [PoolIsFull; PoolConnect; QueryClient (VString "SELECT 1") [];
            Complete; Callback [VNull; VResult "rows"]] 0 0).
Proof. reflexivity. Qed.

Example query_without_handler :
  end_of (query calm [VString "SELECT 1"; VArray []])
  = Throw (Error ".query requires 3 arguments").
Proof. reflexivity. Qed.

Lemma transaction_empty (w : World) (p : prepared) (callback : value) :
  prepared_length p = 0 ->
  transaction w p callback init
  = (Throw (Error "Must give valid array of statements (with or without parameters)"),
     init).
Proof. intros H. unfold transaction. now rewrite H. Qed.

Lemma transaction_full (w : World) (p : prepared) (callback : value) :
  prepared_length p <> 0 -> isFull w = true ->
  exists n t,
    transaction w p callback init
    = (handler_end w callback,
       State [PoolIsFull; handler_event callback [VError (Error "Pool is full")]]
             n t).
Proof.
  intros Hlen Hfull. apply Nat.eqb_neq in Hlen.
  unfold transaction. rewrite Hlen. run_steps. rewrite Hfull.
  rewrite call_handler. cbn. eauto.
Qed.

Lemma transaction_unreachable (w : World) (p : prepared) (callback : value)
    (err : error) :
  prepared_length p <> 0 -> isFull w = false -> connect w = Some err ->
  exists n t,
    transaction w p callback init
    = (match handler_throwing w callback with
       | Some e => Throw e
       | None =>
           if release_given w then Normal VUndefined
           else Throw (Error "complete is not a function")
       end,
       State ([PoolIsFull; PoolConnect; DbError (message err);
               handler_event callback [VError err]]
              ++ after_handler w callback
                   (if release_given w then [Complete] else [])) n t).
Proof.
  intros Hlen Hfull Hconn. apply Nat.eqb_neq in Hlen.
  unfold transaction. rewrite Hlen. run_steps. rewrite Hfull, Hconn.
  run_steps. rewrite call_handler. run_steps.
  unfold handler_end, after_handler, handler_throwing.
  destruct callback; try destruct (handler_throws w);
    destruct (release_given w); cbn; eauto.
Qed.

(** *** Reading the trace of a batch *)

Lemma queries_of_app (a b : list event) :
  queries_of (a ++ b) = queries_of a ++ queries_of b.
Proof.
  induction a as [|e a IH]; [reflexivity |].
  destruct e; cbn; now rewrite ?IH.
Qed.

Lemma handler_calls_app (a b : list event) :
  handler_calls (a ++ b) = handler_calls a ++ handler_calls b.
Proof.
  induction a as [|e a IH]; [reflexivity |].
  destruct e; cbn; now rewrite ?IH.
Qed.

Lemma releases_app (a b : list event) :
  releases (a ++ b) = releases a + releases b.
Proof.
  induction a as [|e a IH]; [reflexivity |].
  destruct e; cbn; now rewrite ?IH.
Qed.

Lemma statement_events_read (w : World) (start : Z) (stmts : list queryData) :
  forall t,
    queries_of (statement_events w start t stmts) = map as_query stmts
    /\ handler_calls (statement_events w start t stmts) = []
    /\ caller_calls (statement_events w start t stmts) = []
    /\ releases (statement_events w start t stmts) = 0
    /\ map to_noop (statement_events w start t stmts)
       = statement_events w start t stmts.
Proof.
  induction stmts as [|q stmts IH]; intros t; [repeat split |].
  destruct (IH (S t)) as (Hq & Hh & Hc & Hr & Hn).
  cbn. rewrite Hq, Hh, Hc, Hr, Hn. repeat split.
Qed.

Lemma answers_all_ok (vs : list value) :
  oks (map Ok vs) = vs /\ failure (map Ok vs) = None.
Proof.
  induction vs as [|v vs [IH1 IH2]]; [split; reflexivity |].
  cbn. now rewrite IH1, IH2.
Qed.

Lemma answers_first_failure (vs : list value) (e : error) (later : list response) :
  oks (map Ok vs ++ Fail e :: later) = vs
  /\ failure (map Ok vs ++ Fail e :: later) = Some e.
Proof.
  induction vs as [|v vs [IH1 IH2]]; [split; reflexivity |].
  cbn. now rewrite IH1, IH2.
Qed.

Lemma after_handler_complete (w : World) (callback : value) :
  after_handler w callback [Complete] = []
  \/ after_handler w callback [Complete] = [Complete].
Proof. unfold after_handler. destruct (handler_throwing w callback); auto. Qed.

Lemma releases_batch (w : World) (callback : value) (stmts : list queryData) :
  handler_throwing w callback = None ->
  releases (batch_events w callback stmts) = 1.
Proof.
  intros Hret. unfold batch_events, rollback_events, commit_events, after_handler.
  rewrite Hret.
  destruct (failure _) as [e|].
  - destruct (client_query w _ "ROLLBACK" None);
      rewrite !releases_app, (proj1 (proj2 (proj2 (proj2 (statement_events_read _ _ _ _)))));
      destruct callback; reflexivity.
  - destruct (client_query w _ "COMMIT" None);
      rewrite !releases_app, (proj1 (proj2 (proj2 (proj2 (statement_events_read _ _ _ _)))));
      destruct callback; reflexivity.
Qed.



(** C1, at a batch whose second statement fails, run with a handler that
    throws: the connection has been handed out, the handler is called with
    the statement's error, and the release that comes after the call in
    the rollback branch is never reached.  The same handler on the commit
    path, and in [query], finds the connection released already. *)
Theorem throwing_handler_leaves_connection_unreleased :
  trace_of (transaction s2_fails_handler_throws (PreparedArray [S1; S2; S3])
              VFunction)
  = [PoolIsFull; PoolConnect; DbInfo "Transaction started...";
     ClientQuery "BEGIN" None;
     DbLog "S1" [] 1; ClientQuery "S1" None;
     DbLog "S2" [] 2; ClientQuery "S2" None;
     DbError "syntax error"; DbInfo "Rollback started...";
     ClientQuery "ROLLBACK" None;
     DbInfo "Rollback complete!"; DbInfo "Transaction complete!";
     Callback [VError boom]]
  /\ acquisitions
       (trace_of (transaction s2_fails_handler_throws (PreparedArray [S1; S2; S3])
                    VFunction)) = 1
  /\ releases
       (trace_of (transaction s2_fails_handler_throws (PreparedArray [S1; S2; S3])
                    VFunction)) = 0
  /\ end_of (transaction s2_fails_handler_throws (PreparedArray [S1; S2; S3])
               VFunction) = Throw thrown
  /\ releases
       (trace_of (transaction calm_handler_throws (PreparedArray [S1; S2; S3])
                    VFunction)) = 1
  /\ releases
       (trace_of (query calm_handler_throws
                    [VString "SELECT 1"; VArray []; VFunction])) = 1.
Proof. repeat split. Qed.

(** The same on every batch in which a step fails and the caller's handler
    throws: one connection handed out, none released. *)
Lemma rollback_with_throwing_handler (w : World) (p : prepared)
    (results : list value) (txnErr : error) (later : list response) (e : error) :
  prepared_length p <> 0 -> isFull w = false -> connect w = None ->
  handler_throws w = Some e ->
  responses w 0 (BEGIN :: statements_of p)
  = map Ok results ++ Fail txnErr :: later ->
  releases (trace_of (transaction w p VFunction)) = 0
  /\ end_of (transaction w p VFunction) = Throw e.
Proof.
  intros Hlen Hfull Hconn Hthrow Hresp. unfold trace_of, end_of.
  destruct (transaction_connected w p VFunction Hlen Hfull Hconn) as (n & t & ->).
  cbn [fst snd trace]. unfold batch_end, batch_events, rollback_events,
    after_handler, handler_throwing.
  rewrite Hresp, Hthrow.
  destruct (answers_first_failure results txnErr later) as [-> ->].
  split; [| reflexivity].
  rewrite !releases_app.
  rewrite (proj1 (proj2 (proj2 (proj2 (statement_events_read _ _ _ _))))).
  destruct (client_query w _ "ROLLBACK" None); reflexivity.
Qed.

(** C2, on the specification's batch: with [S1] and [S2] both succeeding the
    handler does not receive the two results alone. *)
Lemma batch_commit_counterexample :
  caller_calls (trace_of (transaction calm (PreparedArray [S1; S2]) VFunction))
  <> [[VNull; VArray [VResult "S1"; VResult "S2"]]].
Proof. vm_compute. discriminate. Qed.

(** C2 (amended).  When the [BEGIN] step and every statement of a batch
    succeed, the statements are followed by one [COMMIT]; if the commit
    succeeds the handler is called once, with [null] and the results of
    all steps of the series in execution order: the result of [BEGIN]
    first, then the results of the statements. *)
Theorem batch_commit (w : World) (p : prepared) (callback : value)
    (began : value) (results : list value) :
  prepared_length p <> 0 -> isFull w = false -> connect w = None ->
  client_query w 0 "BEGIN" None = Ok began ->
  responses w 1 (statements_of p) = map Ok results ->
  let tr := trace_of (transaction w p callback) in
  queries_of tr
  = ("BEGIN", None) :: map as_query (statements_of p) ++ [("COMMIT", None)]
  /\ (forall committed,
        client_query w (S (length (statements_of p))) "COMMIT" None = Ok committed ->
        handler_calls tr = [[VNull; VArray (began :: results)]]).
Proof.
  intros Hlen Hfull Hconn Hbegin Hresp tr. subst tr. unfold trace_of.
  destruct (transaction_connected w p callback Hlen Hfull Hconn) as (n & t & ->).
  cbn [snd trace]. unfold batch_events, commit_events.
  cbn [responses BEGIN qd_query qd_params]. rewrite Hbegin, Hresp.
  cbn [failure oks].
  destruct (answers_all_ok results) as [-> ->].
  destruct (statement_events_read w (now w 0) (statements_of p) 1)
    as (Hq & Hh & _).
  split.
  - rewrite !queries_of_app, Hq.
    destruct (client_query w _ "COMMIT" None); destruct callback; reflexivity.
  - intros committed ->.
    rewrite !handler_calls_app, Hh. destruct callback; reflexivity.
Qed.

Lemma batch_commit_witness :
  let tr := trace_of (transaction calm (PreparedArray [S1; S2]) VFunction) in
  queries_of tr
  = [("BEGIN", None); ("S1", None); ("S2", None); ("COMMIT", None)]
  /\ handler_calls tr
     = [[VNull; VArray [VResult "BEGIN"; VResult "S1"; VResult "S2"]]].
Proof.
  pose proof (batch_commit calm (PreparedArray [S1; S2]) VFunction
                (VResult "BEGIN") [VResult "S1"; VResult "S2"]
                ltac:(discriminate) eq_refl eq_refl eq_refl eq_refl)
    as [Hq Hc].
  split; [exact Hq | exact (Hc (VResult "COMMIT") eq_refl)].
Defined.

(** C3.  When a step of the batch fails, [ROLLBACK] is the last statement
    sent to the connection; if the rollback succeeds the handler is called
    once with the error of the failed step, and if the rollback fails it is
    called once with the error of the rollback, passed on as it came. *)
Theorem batch_rollback (w : World) (p : prepared) (callback : value)
    (results : list value) (txnErr : error) (later : list response) :
  prepared_length p <> 0 -> isFull w = false -> connect w = None ->
  responses w 0 (BEGIN :: statements_of p)
  = map Ok results ++ Fail txnErr :: later ->
  let tr := trace_of (transaction w p callback) in
  last (queries_of tr) = Some ("ROLLBACK", None)
  /\ (forall v,
        client_query w (S (length results)) "ROLLBACK" None = Ok v ->
        handler_calls tr = [[VError txnErr]])
  /\ (forall err,
        client_query w (S (length results)) "ROLLBACK" None = Fail err ->
        handler_calls tr = [[VError err]]).
Proof.
  intros Hlen Hfull Hconn Hresp tr. subst tr. unfold trace_of.
  destruct (transaction_connected w p callback Hlen Hfull Hconn) as (n & t & ->).
  cbn [snd trace]. unfold batch_events, rollback_events. rewrite Hresp.
  destruct (answers_first_failure results txnErr later) as [-> ->].
  destruct (statement_events_read w (now w 0)
              (take (length results) (statements_of p)) 1) as (Hq & Hh & _).
  split; [| split].
  - rewrite !queries_of_app, Hq.
    destruct (client_query w _ "ROLLBACK" None);
      destruct (after_handler_complete w callback) as [-> | ->];
      destruct callback;
      cbn; rewrite app_comm_cons; apply last_snoc.
  - intros v ->. rewrite !handler_calls_app, Hh.
    destruct (after_handler_complete w callback) as [-> | ->];
      destruct callback; reflexivity.
  - intros err ->. rewrite !handler_calls_app, Hh.
    destruct (after_handler_complete w callback) as [-> | ->];
      destruct callback; reflexivity.
Qed.

Lemma batch_rollback_witness :
  handler_calls (trace_of (transaction s2_fails (PreparedArray [S1; S2; S3]) VFunction))
  = [[VError boom]]
  /\ handler_calls (trace_of (transaction rollback_fails (PreparedArray [S1; S2; S3])
                                VFunction))
     = [[VError lost]].
Proof.
  split.
  - pose proof (batch_rollback s2_fails (PreparedArray [S1; S2; S3]) VFunction
                  [VResult "BEGIN"; VResult "S1"] boom [Ok (VResult "S3")]
                  ltac:(discriminate) eq_refl eq_refl eq_refl)
      as (_ & Hok & _).
    exact (Hok (VResult "ROLLBACK") eq_refl).
  - pose proof (batch_rollback rollback_fails (PreparedArray [S1; S2; S3]) VFunction
                  [VResult "BEGIN"; VResult "S1"] boom [Ok (VResult "S3")]
                  ltac:(discriminate) eq_refl eq_refl eq_refl)
      as (_ & _ & Hfail).
    exact (Hfail lost eq_refl).
Defined.

(** C4, at a batch whose second statement fails and at a pool that hands
    out no connection: [transaction] calls the handler first and releases
    afterwards, on the rollback paths and on the path of a failed
    acquisition. *)
Theorem transaction_calls_back_before_release :
  trace_of (transaction s2_fails (PreparedArray [S1; S2; S3]) VFunction)
  = [PoolIsFull; PoolConnect; DbInfo "Transaction started...";
     ClientQuery "BEGIN" None;
     DbLog "S1" [] 1; ClientQuery "S1" None;
     DbLog "S2" [] 2; ClientQuery "S2" None;
     DbError "syntax error"; DbInfo "Rollback started...";
     ClientQuery "ROLLBACK" None;
     DbInfo "Rollback complete!"; DbInfo "Transaction complete!";
     Callback [VError boom]; Complete]
  /\ released_before_callback
       (trace_of (transaction s2_fails (PreparedArray [S1; S2; S3]) VFunction))
     = false
  /\ released_before_callback
       (trace_of (transaction rollback_fails (PreparedArray [S1; S2; S3]) VFunction))
     = false
  /\ trace_of (transaction unreachable (PreparedArray [S1]) VFunction)
     = [PoolIsFull; PoolConnect; DbError "connection lost";
        Callback [VError lost]; Complete].
Proof. repeat split. Qed.

Lemma released_before_callback_skip (a b : list event) :
  releases a = 0 -> handler_calls a = [] ->
  released_before_callback (a ++ b) = released_before_callback b.
Proof.
  induction a as [|e a IH]; intros Hr Hh; [reflexivity |].
  destruct e; cbn in Hr, Hh |- *; try discriminate; now apply IH.
Qed.

(** The same order on every batch in which a step fails, whatever the
    rollback answers. *)
Lemma rollback_calls_back_before_release (w : World) (p : prepared)
    (callback : value) (results : list value) (txnErr : error)
    (later : list response) :
  prepared_length p <> 0 -> isFull w = false -> connect w = None ->
  responses w 0 (BEGIN :: statements_of p)
  = map Ok results ++ Fail txnErr :: later ->
  released_before_callback (trace_of (transaction w p callback)) = false.
Proof.
  intros Hlen Hfull Hconn Hresp. unfold trace_of.
  destruct (transaction_connected w p callback Hlen Hfull Hconn) as (n & t & ->).
  cbn [snd trace]. unfold batch_events, rollback_events. rewrite Hresp.
  destruct (answers_first_failure results txnErr later) as [-> ->].
  destruct (statement_events_read w (now w 0)
              (take (length results) (statements_of p)) 1)
    as (_ & Hh & _ & Hr & _).
  cbn [app released_before_callback is_handler_call].
  rewrite released_before_callback_skip by assumption.
  destruct (client_query w _ "ROLLBACK" None);
      destruct (after_handler_complete w callback) as [-> | ->];
      destruct callback; reflexivity.
Qed.

(** The sibling paths release first: the commit paths of [transaction] and
    the failed acquisition in [query]. *)
Lemma siblings_release_before_callback :
  released_before_callback
    (trace_of (transaction commit_fails (PreparedArray [S1]) VFunction)) = true
  /\ released_before_callback
       (trace_of (transaction calm (PreparedArray [S1]) VFunction)) = true
  /\ released_before_callback
       (trace_of (query unreachable [VString "SELECT 1"; VArray []; VFunction]))
     = true.
Proof. repeat split. Qed.

(** C5.  With the pool at capacity, [query] (called with a statement, an
    array of parameters and a handler), [transaction] (called with a
    non-empty batch) and [createTransaction] (called with a handler) ask the
    pool whether it is full, call the handler with the error
    [Pool is full] and do nothing else; whatever the arguments, none of
    them asks the pool for a connection. *)
Theorem pool_full_rejects (w : World) :
  isFull w = true ->
  (forall (q : value) (params more : list value),
     trace_of (query w (q :: VArray params :: VFunction :: more))
     = [PoolIsFull; Callback [VError (Error "Pool is full")]])
  /\ (forall (p : prepared) (callback : value),
        prepared_length p <> 0 ->
        trace_of (transaction w p callback)
        = [PoolIsFull; handler_event callback [VError (Error "Pool is full")]])
  /\ trace_of (createTransaction w VFunction)
     = [PoolIsFull; Callback [VError (Error "Pool is full")]]
  /\ (forall arguments, acquisitions (trace_of (query w arguments)) = 0)
  /\ (forall p callback, acquisitions (trace_of (transaction w p callback)) = 0)
  /\ (forall callback, acquisitions (trace_of (createTransaction w callback)) = 0).
Proof.
  intros Hfull. repeat split.
  - intros q params more. unfold trace_of, query. cbn [length Nat.ltb Nat.leb nth is_array
      is_function negb]. run_steps. rewrite Hfull. run_call; reflexivity.
  - intros p callback Hlen. unfold trace_of.
    now destruct (transaction_full w p callback Hlen Hfull) as (n & t & ->).
  - unfold trace_of, createTransaction. run_steps. rewrite Hfull.
    run_call; reflexivity.
  - intros arguments. unfold trace_of, query.
    destruct (length arguments <? 3); [reflexivity |].
    destruct (is_array (nth 1 arguments VUndefined)); [| reflexivity].
    destruct (nth 2 arguments VUndefined); try reflexivity;
      cbn [negb is_function]; run_steps; rewrite Hfull; run_call; reflexivity.
  - intros p callback. unfold trace_of.
    destruct (Nat.eq_dec (prepared_length p) 0) as [Hlen | Hlen].
    + now rewrite transaction_empty.
    + destruct (transaction_full w p callback Hlen Hfull) as (n & t & ->).
      destruct callback; reflexivity.
  - intros callback. unfold trace_of, createTransaction. run_steps.
    rewrite Hfull. destruct callback; run_call; reflexivity.
Qed.

Lemma pool_full_rejects_witness :
  trace_of (query crowded [VString "SELECT 1"; VArray []; VFunction])
  = [PoolIsFull; Callback [VError (Error "Pool is full")]]
  /\ trace_of (transaction crowded (PreparedArray [S1; S2]) VFunction)
     = [PoolIsFull; Callback [VError (Error "Pool is full")]]
  /\ trace_of (createTransaction crowded VFunction)
     = [PoolIsFull; Callback [VError (Error "Pool is full")]].
Proof.
  pose proof (pool_full_rejects crowded eq_refl) as (Hq & Ht & Hc & _).
  split; [apply Hq | split; [| exact Hc]].
  apply (Ht (PreparedArray [S1; S2]) VFunction). discriminate.
Defined.

(** C6.  On a connection the pool handed out, the batch sends [BEGIN] and
    then the statements in the order given.  When the first failure is that
    of statement number [length results] (counted from zero), the
    statements up to and including it are sent, then [ROLLBACK], and no
    statement after it; when no statement fails they are all sent, then
    [COMMIT]. *)
Theorem batch_order (w : World) (p : prepared) (callback : value)
    (began : value) :
  prepared_length p <> 0 -> isFull w = false -> connect w = None ->
  client_query w 0 "BEGIN" None = Ok began ->
  let tr := trace_of (transaction w p callback) in
  (forall results txnErr later,
     responses w 1 (statements_of p) = map Ok results ++ Fail txnErr :: later ->
     queries_of tr
     = ("BEGIN", None)
         :: map as_query (take (S (length results)) (statements_of p))
         ++ [("ROLLBACK", None)])
  /\ (forall results,
        responses w 1 (statements_of p) = map Ok results ->
        queries_of tr
        = ("BEGIN", None) :: map as_query (statements_of p) ++ [("COMMIT", None)]).
Proof.
  intros Hlen Hfull Hconn Hbegin tr. subst tr. unfold trace_of.
  destruct (transaction_connected w p callback Hlen Hfull Hconn) as (n & t & ->).
  cbn [snd trace]. unfold batch_events, rollback_events, commit_events.
  cbn [responses BEGIN qd_query qd_params]. rewrite Hbegin.
  cbn [failure oks length].
  split.
  - intros results txnErr later ->.
    destruct (answers_first_failure results txnErr later) as [-> ->].
    rewrite !queries_of_app.
    rewrite (proj1 (statement_events_read w (now w 0) _ 1)).
    destruct (client_query w _ "ROLLBACK" None);
      destruct (after_handler_complete w callback) as [-> | ->];
      destruct callback; reflexivity.
  - intros results ->.
    destruct (answers_all_ok results) as [-> ->].
    rewrite !queries_of_app.
    rewrite (proj1 (statement_events_read w (now w 0) _ 1)).
    destruct (client_query w _ "COMMIT" None); destruct callback; reflexivity.
Qed.

(** The specification's batch: [S2] fails, so [S3] is never sent. *)
Lemma batch_order_witness :
  queries_of (trace_of (transaction s2_fails (PreparedArray [S1; S2; S3]) VFunction))
  = [("BEGIN", None); ("S1", None); ("S2", None); ("ROLLBACK", None)]
  /\ queries_of (trace_of (transaction calm (PreparedArray [S1; S2; S3]) VFunction))
     = [("BEGIN", None); ("S1", None); ("S2", None); ("S3", None);
        ("COMMIT", None)].
Proof.
  split.
  - pose proof (batch_order s2_fails (PreparedArray [S1; S2; S3]) VFunction
                  (VResult "BEGIN") ltac:(discriminate) eq_refl eq_refl eq_refl)
      as [Hfail _].
    exact (Hfail [VResult "S1"] boom [Ok (VResult "S3")] eq_refl).
  - pose proof (batch_order calm (PreparedArray [S1; S2; S3]) VFunction
                  (VResult "BEGIN") ltac:(discriminate) eq_refl eq_refl eq_refl)
      as [_ Hok].
    exact (Hok [VResult "S1"; VResult "S2"; VResult "S3"] eq_refl).
Defined.

Lemma handler_event_noop (callback : value) (args : list value) :
  is_function callback = false ->
  handler_event callback args = NoopCallback args.
Proof. destruct callback; (discriminate || reflexivity). Qed.

Lemma handler_throwing_noop (w : World) (callback : value) :
  is_function callback = false -> handler_throwing w callback = None.
Proof. destruct callback; (discriminate || reflexivity). Qed.

Lemma caller_calls_app (a b : list event) :
  caller_calls (a ++ b) = caller_calls a ++ caller_calls b.
Proof.
  induction a as [|e a IH]; [reflexivity |].
  destruct e; cbn; now rewrite ?IH.
Qed.

Lemma batch_events_noop (w : World) (callback : value) (stmts : list queryData) :
  is_function callback = false -> handler_throws w = None ->
  batch_events w callback stmts = map to_noop (batch_events w VFunction stmts).
Proof.
  intros Hcb Hret.
  unfold batch_events, rollback_events, commit_events, after_handler.
  rewrite (handler_throwing_noop w callback Hcb). cbn [handler_throwing].
  rewrite Hret.
  destruct (failure _) as [e|].
  - destruct (client_query w _ "ROLLBACK" None);
      rewrite !map_app, (proj2 (proj2 (proj2 (proj2 (statement_events_read _ _ _ _)))));
      cbn; now rewrite handler_event_noop.
  - destruct (client_query w _ "COMMIT" None);
      rewrite !map_app, (proj2 (proj2 (proj2 (proj2 (statement_events_read _ _ _ _)))));
      cbn; now rewrite handler_event_noop.
Qed.

Lemma caller_calls_noop (tr : list event) : caller_calls (map to_noop tr) = [].
Proof.
  induction tr as [|e tr IH]; [reflexivity |]. destruct e; cbn; exact IH.
Qed.

Lemma caller_calls_batch (w : World) (callback : value) (stmts : list queryData) :
  is_function callback = false ->
  caller_calls (batch_events w callback stmts) = [].
Proof.
  intros Hcb.
  unfold batch_events, rollback_events, commit_events, after_handler.
  rewrite (handler_throwing_noop w callback Hcb).
  destruct (failure _) as [e|].
  - destruct (client_query w _ "ROLLBACK" None);
      rewrite !caller_calls_app,
        (proj1 (proj2 (proj2 (statement_events_read _ _ _ _))));
      cbn; now rewrite handler_event_noop.
  - destruct (client_query w _ "COMMIT" None);
      rewrite !caller_calls_app,
        (proj1 (proj2 (proj2 (statement_events_read _ _ _ _))));
      cbn; now rewrite handler_event_noop.
Qed.

Lemma handler_calls_batch (w : World) (callback : value) (stmts : list queryData) :
  length (handler_calls (batch_events w callback stmts)) = 1.
Proof.
  unfold batch_events, rollback_events, commit_events.
  destruct (failure _) as [e|].
  - destruct (client_query w _ "ROLLBACK" None);
      destruct (after_handler_complete w callback) as [-> | ->];
      rewrite !handler_calls_app,
        (proj1 (proj2 (statement_events_read _ _ _ _)));
      destruct callback; reflexivity.
  - destruct (client_query w _ "COMMIT" None);
      rewrite !handler_calls_app,
        (proj1 (proj2 (statement_events_read _ _ _ _)));
      destruct callback; reflexivity.
Qed.

(** C10.  Called with a non-empty batch and a completion handler that is not
    callable, [transaction] does not throw on that account and never calls
    the caller: the one call of a handler goes to the no-op it has put in
    the handler's place.  It goes on as with a callable handler: it consults
    the pool, and on a connection it sends [BEGIN], the statements and the
    closing [COMMIT] or [ROLLBACK], releases the connection, and hands the
    outcome (the results, or the error) to the no-op.  It ends normally when
    the pool is full and when it has a connection; when the pool reports an
    error, the no-op receives it, and the call ends normally unless the
    pool has passed no release action, whose call throws whatever the
    handler was. *)
Theorem batch_without_handler (w : World) (p : prepared) (callback : value) :
  prepared_length p <> 0 -> is_function callback = false ->
  let tr := trace_of (transaction w p callback) in
  let stmts := statements_of p in
  caller_calls tr = []
  /\ length (handler_calls tr) = 1
  /\ (isFull w = true ->
        tr = [PoolIsFull; NoopCallback [VError (Error "Pool is full")]]
        /\ end_of (transaction w p callback) = Normal VUndefined)
  /\ (isFull w = false -> connect w = None ->
        end_of (transaction w p callback) = Normal VUndefined
        /\ releases tr = 1
        /\ (forall began results,
              client_query w 0 "BEGIN" None = Ok began ->
              responses w 1 stmts = map Ok results ->
              queries_of tr
              = ("BEGIN", None) :: map as_query stmts ++ [("COMMIT", None)]
              /\ (forall committed,
                    client_query w (S (length stmts)) "COMMIT" None = Ok committed ->
                    handler_calls tr = [[VNull; VArray (began :: results)]]))
        /\ (forall results txnErr later,
              responses w 0 (BEGIN :: stmts)
              = map Ok results ++ Fail txnErr :: later ->
              queries_of tr
              = map as_query (take (S (length results)) (BEGIN :: stmts))
                ++ [("ROLLBACK", None)]
              /\ (forall v,
                    client_query w (S (length results)) "ROLLBACK" None = Ok v ->
                    handler_calls tr = [[VError txnErr]])))
  /\ (forall err, isFull w = false -> connect w = Some err ->
        tr = [PoolIsFull; PoolConnect; DbError (message err);
              NoopCallback [VError err]]
             ++ (if release_given w then [Complete] else [])
        /\ end_of (transaction w p callback)
           = if release_given w then Normal VUndefined
             else Throw (Error "complete is not a function"))
  /\ (handler_throws w = None ->
        tr = map to_noop (trace_of (transaction w p VFunction)))
  /\ transaction w p callback = transaction w p VNoop.
Proof.
  intros Hlen Hcb tr stmts. subst tr stmts.
  pose proof (handler_throwing_noop w callback Hcb) as Hquiet.
  assert (handler_end w callback = Normal VUndefined) as Hend
    by (destruct callback; (discriminate Hcb || reflexivity)).
  split; [| split; [| split; [| split; [| split; [| split]]]]].
  - unfold trace_of.
    destruct (isFull w) eqn:Hfull.
    { destruct (transaction_full w p callback Hlen Hfull) as (n & t & ->).
      cbn. now rewrite handler_event_noop. }
    destruct (connect w) as [err|] eqn:Hconn.
    { destruct (transaction_unreachable w p callback err Hlen Hfull Hconn)
        as (n & t & ->).
      cbn [snd trace]. unfold after_handler. rewrite Hquiet.
      rewrite handler_event_noop by exact Hcb.
      destruct (release_given w); reflexivity. }
    destruct (transaction_connected w p callback Hlen Hfull Hconn) as (n & t & ->).
    now apply caller_calls_batch.
  - unfold trace_of.
    destruct (isFull w) eqn:Hfull.
    { destruct (transaction_full w p callback Hlen Hfull) as (n & t & ->).
      cbn. now rewrite handler_event_noop. }
    destruct (connect w) as [err|] eqn:Hconn.
    { destruct (transaction_unreachable w p callback err Hlen Hfull Hconn)
        as (n & t & ->).
      cbn [snd trace]. unfold after_handler. rewrite Hquiet.
      rewrite handler_event_noop by exact Hcb.
      destruct (release_given w); reflexivity. }
    destruct (transaction_connected w p callback Hlen Hfull Hconn) as (n & t & ->).
    apply handler_calls_batch.
  - intros Hfull. unfold trace_of, end_of.
    destruct (transaction_full w p callback Hlen Hfull) as (n & t & ->).
    cbn. rewrite handler_event_noop by exact Hcb. now rewrite Hend.
  - intros Hfull Hconn. unfold trace_of, end_of.
    destruct (transaction_connected w p callback Hlen Hfull Hconn) as (n & t & ->).
    cbn [fst snd trace]. unfold batch_end. rewrite Hquiet.
    split; [reflexivity |].
    split; [now apply releases_batch |].
    split.
    + intros began results Hbegin Hresp.
      unfold batch_events, commit_events.
      cbn [responses BEGIN qd_query qd_params]. rewrite Hbegin, Hresp.
      cbn [failure oks].
      destruct (answers_all_ok results) as [-> ->].
      destruct (statement_events_read w (now w 0) (statements_of p) 1)
        as (Hq & Hh & _).
      split.
      * rewrite !queries_of_app, Hq.
        destruct (client_query w _ "COMMIT" None); destruct callback; reflexivity.
      * intros committed ->.
        rewrite !handler_calls_app, Hh. destruct callback; reflexivity.
    + intros results txnErr later Hresp.
      unfold batch_events, rollback_events, after_handler.
      rewrite Hresp, Hquiet.
      destruct (answers_first_failure results txnErr later) as [-> ->].
      destruct (statement_events_read w (now w 0)
                  (take (length results) (statements_of p)) 1) as (Hq & Hh & _).
      split.
      * rewrite !queries_of_app, Hq.
        destruct (client_query w _ "ROLLBACK" None); destruct callback;
          cbn; rewrite ?app_nil_r; reflexivity.
      * intros v ->. rewrite !handler_calls_app, Hh.
        destruct callback; reflexivity.
  - intros err Hfull Hconn. unfold trace_of, end_of.
    destruct (transaction_unreachable w p callback err Hlen Hfull Hconn)
      as (n & t & ->).
    cbn [fst snd trace]. unfold after_handler. rewrite Hquiet.
    rewrite handler_event_noop by exact Hcb. split; reflexivity.
  - intros Hret. unfold trace_of.
    destruct (isFull w) eqn:Hfull.
    { destruct (transaction_full w p VFunction Hlen Hfull) as (n & t & ->).
      destruct (transaction_full w p callback Hlen Hfull) as (n' & t' & ->).
      cbn. now rewrite handler_event_noop. }
    destruct (connect w) as [err|] eqn:Hconn.
    { destruct (transaction_unreachable w p VFunction err Hlen Hfull Hconn)
        as (n & t & ->).
      destruct (transaction_unreachable w p callback err Hlen Hfull Hconn)
        as (n' & t' & ->).
      cbn [snd trace]. unfold after_handler. rewrite Hquiet.
      cbn [handler_throwing]. rewrite Hret.
      rewrite handler_event_noop by exact Hcb.
      destruct (release_given w); reflexivity. }
    destruct (transaction_connected w p VFunction Hlen Hfull Hconn) as (n & t & ->).
    destruct (transaction_connected w p callback Hlen Hfull Hconn) as (n' & t' & ->).
    cbn [snd trace]. now apply batch_events_noop.
  - unfold transaction. now rewrite Hcb.
Qed.

Lemma batch_without_handler_witness :
  caller_calls (trace_of (transaction calm (PreparedArray [S1; S2]) VUndefined)) = []
  /\ end_of (transaction calm (PreparedArray [S1; S2]) VUndefined) = Normal VUndefined
  /\ queries_of (trace_of (transaction calm (PreparedArray [S1; S2]) VUndefined))
     = [("BEGIN", None); ("S1", None); ("S2", None); ("COMMIT", None)]
  /\ handler_calls (trace_of (transaction calm (PreparedArray [S1; S2]) VUndefined))
     = [[VNull; VArray [VResult "BEGIN"; VResult "S1"; VResult "S2"]]].
Proof.
  pose proof (batch_without_handler calm (PreparedArray [S1; S2]) VUndefined
                ltac:(discriminate) eq_refl) as (Hcaller & _ & _ & Hrun & _).
  destruct (Hrun eq_refl eq_refl) as (Hend & _ & Hok & _).
  destruct (Hok (VResult "BEGIN") [VResult "S1"; VResult "S2"] eq_refl eq_refl)
    as (Hq & Hh).
  split; [exact Hcaller |]. split; [exact Hend |]. split; [exact Hq |].
  exact (Hh (VResult "COMMIT") eq_refl).
Defined.

(** * Further properties of the operations *)

Import Observe.

(** ** [query] *)

Lemma valid_query_call_ltb (arguments : list value) :
  (length arguments <? 3) = negb (3 <=? length arguments).
Proof. rewrite Nat.leb_antisym. now rewrite negb_involutive. Qed.

(** A well-formed call has a statement, an array of parameters and a
    function. *)
Lemma valid_query_shape (arguments : list value) :
  valid_query_call arguments = true ->
  exists q params callback more,
    arguments = q :: VArray params :: callback :: more
    /\ (callback = VFunction \/ callback = VNoop).
Proof.
  unfold valid_query_call. intros Hv.
  destruct arguments as [|q [|ps [|cb more]]]; try discriminate Hv.
  cbn in Hv. destruct ps; try discriminate Hv.
  destruct cb; try discriminate Hv; eauto 8.
Qed.

(** The answers of the world, case by case. *)
Ltac world_cases :=
  repeat (run_steps; cbn;
          match goal with
          | |- context [isFull ?w] => destruct (isFull w)
          | |- context [connect ?w] => destruct (connect w)
          | |- context [release_given ?w] => destruct (release_given w)
          | |- context [beginClient ?w] => destruct (beginClient w)
          | |- context [handler_throws ?w] => destruct (handler_throws w)
          end).

Ltac settle :=
  cbn; repeat split; intros;
  repeat match goal with
         | H : _ \/ _ |- _ => destruct H
         | H : _ /\ _ |- _ => destruct H
         end;
  try discriminate; try congruence; try lia; eauto.

(** X1.  [query] rejects a call that is not well formed (fewer than three
    arguments, parameters that are not an array, or a handler that is not
    a function) by throwing before it has touched the pool, the connection
    or the logger, the argument count being checked first.  A well-formed
    call always begins by asking the pool whether it is full; it ends
    normally when the handler returns and the pool, if it reports an error,
    passes a release action with it. *)
Theorem query_validation (w : World) (arguments : list value) :
  (valid_query_call arguments = false ->
     trace_of (query w arguments) = []
     /\ exists e, end_of (query w arguments) = Throw e)
  /\ (valid_query_call arguments = true ->
        exists rest, trace_of (query w arguments) = PoolIsFull :: rest)
  /\ (length arguments < 3 ->
        end_of (query w arguments) = Throw (Error ".query requires 3 arguments"))
  /\ (valid_query_call arguments = true ->
        handler_throws w = None ->
        isFull w = true \/ connect w = None \/ release_given w = true ->
        exists r, end_of (query w arguments) = Normal r).
Proof.
  split; [| split; [| split]].
  - unfold valid_query_call, trace_of, end_of, query.
    rewrite valid_query_call_ltb. intros Hv.
    destruct (3 <=? length arguments); [| split; [reflexivity | eauto]].
    destruct (is_array (nth 1 arguments VUndefined));
      [| split; [reflexivity | eauto]].
    destruct (nth 2 arguments VUndefined); try discriminate Hv;
      (split; [reflexivity | eauto]).
  - intros Hv.
    destruct (valid_query_shape arguments Hv)
      as (q & params & callback & more & -> & [-> | ->]);
      unfold trace_of, query;
      cbn [length Nat.ltb Nat.leb nth is_array is_function negb array_items];
      world_cases; settle.
  - intros Hlt. unfold end_of, query. apply Nat.ltb_lt in Hlt. now rewrite Hlt.
  - intros Hv.
    destruct (valid_query_shape arguments Hv)
      as (q & params & callback & more & -> & [-> | ->]);
      unfold end_of, query;
      cbn [length Nat.ltb Nat.leb nth is_array is_function negb array_items];
      world_cases; settle.
Qed.

Lemma query_validation_witness :
  trace_of (query calm [VString "SELECT 1"; VString "oops"; VFunction]) = []
  /\ (exists r, end_of (query calm [VString "SELECT 1"; VArray []; VFunction]) = Normal r)
  /\ end_of (query calm [VString "SELECT 1"; VFunction])
     = Throw (Error ".query requires 3 arguments").
Proof.
  split; [| split].
  - apply (proj1 (query_validation calm [VString "SELECT 1"; VString "oops"; VFunction])).
    reflexivity.
  - apply (proj2 (proj2 (proj2 (query_validation calm
                           [VString "SELECT 1"; VArray []; VFunction])))).
    + reflexivity.
    + reflexivity.
    + right. left. reflexivity.
  - apply (proj1 (proj2 (proj2 (query_validation calm
                                  [VString "SELECT 1"; VFunction])))).
    simpl. lia.
Defined.

(** X2.  A well-formed [query] on a pool that admits it.  With a
    connection, [queryClient] gets the statement and the parameters as they
    were given, the connection is released, and the handler receives what
    [queryClient] reported, unchanged and unlogged, error or result.  When
    the pool reports an error and passes a release action, the error's
    message is logged, [queryClient] is never called, the release action is
    called and the handler receives the error.  When the pool reports an
    error and passes no release action (it has been ended), the message is
    logged and the call of the missing release action throws: the handler
    is never called.  When the handler is called and returns, [query]
    returns [true]; when it throws, so does [query]. *)
Theorem query_outcomes (w : World) (q : value) (params more : list value) :
  isFull w = false ->
  (connect w = None ->
     trace_of (query w (q :: VArray params :: VFunction :: more))
     = [PoolIsFull; PoolConnect; QueryClient q params; Complete;
        Callback (queryClient w q params)])
  /\ (forall err, connect w = Some err -> release_given w = true ->
        trace_of (query w (q :: VArray params :: VFunction :: more))
        = [PoolIsFull; PoolConnect; DbError (message err); Complete;
           Callback [VError err]])
  /\ (forall err, connect w = Some err -> release_given w = false ->
        trace_of (query w (q :: VArray params :: VFunction :: more))
        = [PoolIsFull; PoolConnect; DbError (message err)]
        /\ end_of (query w (q :: VArray params :: VFunction :: more))
           = Throw (Error "complete is not a function"))
  /\ (connect w = None \/ release_given w = true ->
        end_of (query w (q :: VArray params :: VFunction :: more))
        = match handler_throws w with
          | Some e => Throw e
          | None => Normal VTrue
          end).
Proof.
  unfold trace_of, end_of, query.
  cbn [length Nat.ltb Nat.leb nth is_array is_function negb array_items].
  world_cases; settle.
Qed.

Lemma query_outcomes_witness :
  trace_of (query begin_fails [VString "SELECT 1"; VArray [VString "a"]; VFunction])
  = [PoolIsFull; PoolConnect; QueryClient (VString "SELECT 1") [VString "a"];
     Complete; Callback [VError boom]]
  /\ trace_of (query unreachable [VString "SELECT 1"; VArray []; VFunction])
     = [PoolIsFull; PoolConnect; DbError "connection lost"; Complete;
        Callback [VError lost]]
  /\ end_of (query closed [VString "SELECT 1"; VArray []; VFunction])
     = Throw (Error "complete is not a function")
  /\ end_of (query calm_handler_throws [VString "SELECT 1"; VArray []; VFunction])
     = Throw thrown.
Proof.
  split; [| split; [| split]].
  - apply (proj1 (query_outcomes begin_fails (VString "SELECT 1") [VString "a"] []
                    eq_refl)).
    reflexivity.
  - apply (proj1 (proj2 (query_outcomes unreachable (VString "SELECT 1") [] []
                           eq_refl)) lost); reflexivity.
  - apply (proj1 (proj2 (proj2 (query_outcomes closed (VString "SELECT 1") [] []
                                  eq_refl))) ended); reflexivity.
  - apply (proj2 (proj2 (proj2 (query_outcomes calm_handler_throws
                                  (VString "SELECT 1") [] [] eq_refl)))).
    left. reflexivity.
Defined.



(** ** [createTransaction] *)

(** X4.  [createTransaction] with a callable handler calls it at most once,
    and exactly once unless the pool reports an error without a release
    action.  On a connection whose transaction has begun it hands over the
    transaction handle and does not release the connection, which the
    handle keeps.  When the begin fails, or when the pool reports an error
    and passes a release action (and then the begin is never tried), it
    releases once, before it calls the handler with the error.  When the
    pool reports an error without a release action, the call of the missing
    action throws and the handler is never called. *)
Theorem createTransaction_outcomes (w : World) :
  let tr := trace_of (createTransaction w VFunction) in
  length (handler_calls tr) <= 1
  /\ (isFull w = true \/ connect w = None \/ release_given w = true ->
        length (handler_calls tr) = 1)
  /\ (isFull w = false -> connect w = None -> beginClient w = None ->
        handler_calls tr = [[VNull; VTransaction]]
        /\ releases tr = 0 /\ begins tr = 1)
  /\ (forall err,
        isFull w = false -> connect w = None -> beginClient w = Some err ->
        handler_calls tr = [[VError err]]
        /\ releases tr = 1 /\ released_before_callback tr = true)
  /\ (forall err,
        isFull w = false -> connect w = Some err -> release_given w = true ->
        handler_calls tr = [[VError err]]
        /\ releases tr = 1 /\ released_before_callback tr = true
        /\ begins tr = 0)
  /\ (forall err,
        isFull w = false -> connect w = Some err -> release_given w = false ->
        handler_calls tr = [] /\ releases tr = 0 /\ begins tr = 0
        /\ end_of (createTransaction w VFunction)
           = Throw (Error "complete is not a function")).
Proof.
  unfold trace_of, end_of, createTransaction.
  world_cases; settle.
Qed.

Lemma createTransaction_outcomes_witness :
  handler_calls (trace_of (createTransaction calm VFunction))
  = [[VNull; VTransaction]]
  /\ releases (trace_of (createTransaction calm VFunction)) = 0
  /\ releases (trace_of (createTransaction begin_fails VFunction)) = 1
  /\ releases (trace_of (createTransaction unreachable VFunction)) = 1
  /\ handler_calls (trace_of (createTransaction closed VFunction)) = [].
Proof.
  pose proof (createTransaction_outcomes calm) as (_ & _ & Hok & _).
  pose proof (createTransaction_outcomes begin_fails) as (_ & _ & _ & Hbegin & _).
  pose proof (createTransaction_outcomes unreachable) as (_ & _ & _ & _ & Hconn & _).
  pose proof (createTransaction_outcomes closed) as (_ & _ & _ & _ & _ & Hclosed).
  destruct (Hok eq_refl eq_refl eq_refl) as (H1 & H2 & _).
  destruct (Hbegin lost eq_refl eq_refl eq_refl) as (_ & H3 & _).
  destruct (Hconn lost eq_refl eq_refl eq_refl) as (_ & H4 & _).
  destruct (Hclosed ended eq_refl eq_refl eq_refl) as (H5 & _).
  split; [exact H1 |]. split; [exact H2 |]. split; [exact H3 |].
  split; [exact H4 | exact H5].
Defined.

(** X5.  [createTransaction] does not check its handler: with a value that
    is not callable it throws on every path and calls nothing back (the
    throw is that of the call of the handler, unless the pool has reported
    an error without a release action, whose call throws first).  On a
    connection whose transaction has begun, the throw comes after the begin:
    the connection has been acquired and begun, and is left unreleased. *)
Theorem createTransaction_not_callable (w : World) (callback : value) :
  is_function callback = false ->
  let tr := trace_of (createTransaction w callback) in
  (exists e, end_of (createTransaction w callback) = Throw e)
  /\ (isFull w = true \/ connect w = None \/ release_given w = true ->
        end_of (createTransaction w callback)
        = Throw (Error "callback is not a function"))
  /\ handler_calls tr = []
  /\ (isFull w = false -> connect w = None -> beginClient w = None ->
        acquisitions tr = 1 /\ begins tr = 1 /\ releases tr = 0).
Proof.
  intros Hcb. unfold trace_of, end_of, createTransaction.
  destruct callback; try discriminate Hcb; world_cases; settle.
Qed.

Lemma createTransaction_not_callable_witness :
  end_of (createTransaction calm VUndefined)
  = Throw (Error "callback is not a function")
  /\ acquisitions (trace_of (createTransaction calm VUndefined)) = 1
  /\ releases (trace_of (createTransaction calm VUndefined)) = 0.
Proof.
  pose proof (createTransaction_not_callable calm VUndefined eq_refl)
    as (_ & Hend & _ & Hleak).
  destruct (Hleak eq_refl eq_refl eq_refl) as (Ha & _ & Hr).
  split; [apply Hend; right; left; reflexivity | split; assumption].
Defined.

(** ** [transaction] *)

Lemma logs_of_app (a b : list event) : logs_of (a ++ b) = logs_of a ++ logs_of b.
Proof.
  induction a as [|e a IH]; [reflexivity |].
  destruct e; cbn; now rewrite ?IH.
Qed.

Lemma infos_of_app (a b : list event) :
  infos_of (a ++ b) = infos_of a ++ infos_of b.
Proof.
  induction a as [|e a IH]; [reflexivity |].
  destruct e; cbn; now rewrite ?IH.
Qed.

Lemma errors_of_app (a b : list event) :
  errors_of (a ++ b) = errors_of a ++ errors_of b.
Proof.
  induction a as [|e a IH]; [reflexivity |].
  destruct e; cbn; now rewrite ?IH.
Qed.

Lemma statement_events_logs (w : World) (start : Z) (stmts : list queryData) :
  forall t,
    logs_of (statement_events w start t stmts)
    = map (fun q => (qd_query q, default [] (qd_params q))) stmts
    /\ infos_of (statement_events w start t stmts) = []
    /\ errors_of (statement_events w start t stmts) = [].
Proof.
  induction stmts as [|q stmts IH]; intros t; [repeat split |].
  destruct (IH (S t)) as (Hl & Hi & He).
  cbn. rewrite Hl, Hi, He. repeat split.
Qed.

Lemma batch_events_start (w : World) (callback : value) (stmts : list queryData) :
  exists rest, batch_events w callback stmts = PoolIsFull :: rest.
Proof. unfold batch_events. cbn [app]. eauto. Qed.

(** X6.  [transaction] rejects an empty batch (the empty string or the
    empty array) by throwing before it has consulted anything, not even the
    pool.  A non-empty batch always begins by asking the pool whether it is
    full, and [transaction] itself throws on none: if the call throws, it is
    the caller's handler that threw, or the pool reported an error without
    a release action, whose call throws.  Short of both, the call ends
    normally, whatever its handler is and whatever the collaborators
    answer. *)
Theorem transaction_rejects_empty_batch (w : World) (p : prepared)
    (callback : value) :
  (prepared_length p = 0 ->
     trace_of (transaction w p callback) = []
     /\ end_of (transaction w p callback)
        = Throw (Error "Must give valid array of statements (with or without parameters)"))
  /\ (prepared_length p <> 0 ->
        (exists rest, trace_of (transaction w p callback) = PoolIsFull :: rest)
        /\ (forall e, end_of (transaction w p callback) = Throw e ->
              handler_throwing w callback = Some e
              \/ (isFull w = false /\ (exists err, connect w = Some err)
                  /\ release_given w = false
                  /\ e = Error "complete is not a function"))
        /\ (handler_throwing w callback = None ->
            isFull w = true \/ connect w = None \/ release_given w = true ->
            exists r, end_of (transaction w p callback) = Normal r)).
Proof.
  unfold end_of, trace_of. split.
  - intros Hlen. rewrite transaction_empty by exact Hlen. split; reflexivity.
  - intros Hlen.
    destruct (isFull w) eqn:Hfull.
    { destruct (transaction_full w p callback Hlen Hfull) as (n & t & ->).
      cbn [fst snd trace]. unfold handler_end, handler_throwing.
      split; [eauto |].
      destruct callback; try destruct (handler_throws w);
        (split; [intros ? He; try discriminate He; left; congruence |]);
        intros; try discriminate; eauto. }
    destruct (connect w) as [err|] eqn:Hconn.
    { destruct (transaction_unreachable w p callback err Hlen Hfull Hconn)
        as (n & t & ->).
      cbn [fst snd trace app]. split; [eauto |].
      destruct (handler_throwing w callback) as [e1|].
      - split; [intros e0 He; left; congruence | intros; discriminate].
      - destruct (release_given w).
        + split; [intros e0 He; discriminate He | eauto].
        + split.
          * intros e0 He. right. repeat split; eauto. congruence.
          * intros _ [H | [H | H]]; discriminate H. }
    destruct (transaction_connected w p callback Hlen Hfull Hconn) as (n & t & ->).
    cbn [fst snd trace]. split; [apply batch_events_start |].
    unfold batch_end. destruct (handler_throwing w callback) as [e1|].
    + split; [intros e0 He; left; congruence | intros; discriminate].
    + split; [intros e0 He; discriminate He | eauto].
Qed.

Lemma transaction_rejects_empty_batch_witness :
  trace_of (transaction calm (PreparedArray []) VUndefined) = []
  /\ end_of (transaction calm (PreparedString "") VFunction)
     = Throw (Error "Must give valid array of statements (with or without parameters)")
  /\ (exists r, end_of (transaction rollback_fails (PreparedString "S1;S2") VFunction)
                = Normal r).
Proof.
  split; [| split].
  - apply (proj1 (transaction_rejects_empty_batch calm (PreparedArray []) VUndefined)).
    reflexivity.
  - apply (proj1 (transaction_rejects_empty_batch calm (PreparedString "") VFunction)).
    reflexivity.
  - apply (proj2 (transaction_rejects_empty_batch rollback_fails
                    (PreparedString "S1;S2") VFunction)).
    + discriminate.
    + reflexivity.
    + right. left. reflexivity.
Defined.

(** X7.  On a non-empty batch [transaction] calls its handler (the caller's,
    or the no-op that stands in for it) exactly once: when the pool is full,
    when no connection is obtained, and on every way a batch can end. *)
Theorem transaction_calls_back_once (w : World) (p : prepared) (callback : value) :
  prepared_length p <> 0 ->
  length (handler_calls (trace_of (transaction w p callback))) = 1.
Proof.
  intros Hlen. unfold trace_of.
  destruct (isFull w) eqn:Hfull.
  { destruct (transaction_full w p callback Hlen Hfull) as (n & t & ->).
    destruct callback; reflexivity. }
  destruct (connect w) as [err|] eqn:Hconn.
  { destruct (transaction_unreachable w p callback err Hlen Hfull Hconn)
      as (n & t & ->).
    cbn [snd trace]. unfold after_handler, handler_throwing.
    destruct callback; try destruct (handler_throws w);
      destruct (release_given w); reflexivity. }
  destruct (transaction_connected w p callback Hlen Hfull Hconn) as (n & t & ->).
  apply handler_calls_batch.
Qed.

Lemma transaction_calls_back_once_witness :
  length (handler_calls
            (trace_of (transaction rollback_fails (PreparedString "S1;S2;S3")
                         VFunction))) = 1.
Proof.
  apply (transaction_calls_back_once rollback_fails (PreparedString "S1;S2;S3")
           VFunction).
  discriminate.
Defined.

(** X8.  When the pool admits the batch but no connection is obtained,
    nothing is sent and nothing is announced: the error's message is
    logged and the handler receives the error. *)
Theorem transaction_without_connection (w : World) (p : prepared)
    (callback : value) (err : error) :
  prepared_length p <> 0 -> isFull w = false -> connect w = Some err ->
  let tr := trace_of (transaction w p callback) in
  queries_of tr = [] /\ logs_of tr = [] /\ infos_of tr = []
  /\ errors_of tr = [message err]
  /\ handler_calls tr = [[VError err]].
Proof.
  intros Hlen Hfull Hconn tr. subst tr. unfold trace_of.
  destruct (transaction_unreachable w p callback err Hlen Hfull Hconn)
    as (n & t & ->).
  cbn [snd trace]. unfold after_handler, handler_throwing.
  destruct callback; try destruct (handler_throws w);
    destruct (release_given w); repeat split.
Qed.

Lemma transaction_without_connection_witness :
  queries_of (trace_of (transaction unreachable (PreparedArray [S1; S2]) VFunction))
  = []
  /\ handler_calls
       (trace_of (transaction unreachable (PreparedArray [S1; S2]) VFunction))
     = [[VError lost]].
Proof.
  pose proof (transaction_without_connection unreachable (PreparedArray [S1; S2])
                VFunction lost ltac:(discriminate) eq_refl eq_refl)
    as (Hq & _ & _ & _ & Hh).
  split; assumption.
Defined.

(** X9.  When the [BEGIN] of a batch fails, no statement is sent or logged;
    [ROLLBACK] is sent all the same, and if it succeeds the handler receives
    the error of the [BEGIN]. *)
Theorem batch_begin_failure (w : World) (p : prepared) (callback : value)
    (e : error) :
  prepared_length p <> 0 -> isFull w = false -> connect w = None ->
  client_query w 0 "BEGIN" None = Fail e ->
  let tr := trace_of (transaction w p callback) in
  queries_of tr = [("BEGIN", None); ("ROLLBACK", None)]
  /\ logs_of tr = []
  /\ (forall v, client_query w 1 "ROLLBACK" None = Ok v ->
        handler_calls tr = [[VError e]]).
Proof.
  intros Hlen Hfull Hconn Hbegin tr. subst tr. unfold trace_of.
  destruct (transaction_connected w p callback Hlen Hfull Hconn) as (n & t & ->).
  cbn [snd trace]. unfold batch_events, rollback_events.
  cbn [responses BEGIN qd_query qd_params]. rewrite Hbegin.
  cbn [failure oks length firstn statement_events app].
  repeat split.
  - destruct (client_query w 1 "ROLLBACK" None);
      destruct (after_handler_complete w callback) as [-> | ->];
      destruct callback; reflexivity.
  - destruct (client_query w 1 "ROLLBACK" None);
      destruct (after_handler_complete w callback) as [-> | ->];
      destruct callback; reflexivity.
  - intros v ->.
    destruct (after_handler_complete w callback) as [-> | ->];
      destruct callback; reflexivity.
Qed.

Lemma batch_begin_failure_witness :
  queries_of (trace_of (transaction begin_fails (PreparedArray [S1; S2]) VFunction))
  = [("BEGIN", None); ("ROLLBACK", None)]
  /\ handler_calls
       (trace_of (transaction begin_fails (PreparedArray [S1; S2]) VFunction))
     = [[VError lost]].
Proof.
  pose proof (batch_begin_failure begin_fails (PreparedArray [S1; S2]) VFunction
                lost ltac:(discriminate) eq_refl eq_refl eq_refl)
    as (Hq & _ & Hh).
  split; [exact Hq | exact (Hh (VResult "ROLLBACK") eq_refl)].
Defined.

(** X10.  When every step of a batch succeeds and the [COMMIT] fails, the
    handler receives the error of the commit and none of the results; the
    failure is logged, the connection is released before the handler is
    called, and no [ROLLBACK] follows: [COMMIT] is the last statement
    sent. *)
Theorem batch_commit_failure (w : World) (p : prepared) (callback : value)
    (began : value) (results : list value) (err : error) :
  prepared_length p <> 0 -> isFull w = false -> connect w = None ->
  client_query w 0 "BEGIN" None = Ok began ->
  responses w 1 (statements_of p) = map Ok results ->
  client_query w (S (length (statements_of p))) "COMMIT" None = Fail err ->
  let tr := trace_of (transaction w p callback) in
  handler_calls tr = [[VError err]]
  /\ errors_of tr = ["Commit failed - " +:+ message err]
  /\ released_before_callback tr = true
  /\ last (queries_of tr) = Some ("COMMIT", None).
Proof.
  intros Hlen Hfull Hconn Hbegin Hresp Hcommit tr. subst tr. unfold trace_of.
  destruct (transaction_connected w p callback Hlen Hfull Hconn) as (n & t & ->).
  cbn [snd trace]. unfold batch_events, commit_events.
  cbn [responses BEGIN qd_query qd_params]. rewrite Hbegin, Hresp.
  cbn [failure oks]. destruct (answers_all_ok results) as [-> ->].
  rewrite Hcommit.
  destruct (statement_events_read w (now w 0) (statements_of p) 1)
    as (Hq & Hh & _ & Hr & _).
  destruct (statement_events_logs w (now w 0) (statements_of p) 1)
    as (_ & _ & He).
  repeat split.
  - rewrite !handler_calls_app, Hh. destruct callback; reflexivity.
  - rewrite !errors_of_app, He. destruct callback; reflexivity.
  - cbn [app released_before_callback is_handler_call].
    rewrite released_before_callback_skip by assumption.
    destruct callback; reflexivity.
  - rewrite !queries_of_app, Hq. destruct callback; cbn;
      rewrite app_comm_cons; apply last_snoc.
Qed.

Lemma batch_commit_failure_witness :
  handler_calls (trace_of (transaction commit_fails (PreparedArray [S1; S2]) VFunction))
  = [[VError lost]]
  /\ released_before_callback
       (trace_of (transaction commit_fails (PreparedArray [S1; S2]) VFunction))
     = true.
Proof.
  pose proof (batch_commit_failure commit_fails (PreparedArray [S1; S2]) VFunction
                (VResult "BEGIN") [VResult "S1"; VResult "S2"] lost
                ltac:(discriminate) eq_refl eq_refl eq_refl eq_refl eq_refl)
    as (Hh & _ & Hr & _).
  split; assumption.
Defined.

(** X11.  On a connection, the statements that are logged are exactly the
    statements that are sent, in the same order, each with the empty array
    in place of missing parameters; [BEGIN] and the closing [ROLLBACK] or
    [COMMIT] are sent without being logged.  The statements sent are a
    prefix of the batch. *)
Theorem batch_logs_what_it_sends (w : World) (p : prepared) (callback : value) :
  prepared_length p <> 0 -> isFull w = false -> connect w = None ->
  let tr := trace_of (transaction w p callback) in
  exists (k : nat) (closing : string),
    logs_of tr
    = map (fun q => (qd_query q, default [] (qd_params q)))
          (take k (statements_of p))
    /\ queries_of tr
       = ("BEGIN", None) :: map as_query (take k (statements_of p))
         ++ [(closing, None)]
    /\ (closing = "ROLLBACK" \/ closing = "COMMIT").
Proof.
  intros Hlen Hfull Hconn tr. subst tr. unfold trace_of.
  destruct (transaction_connected w p callback Hlen Hfull Hconn) as (n & t & ->).
  cbn [snd trace]. unfold batch_events, rollback_events, commit_events.
  set (rs := responses w 0 (BEGIN :: statements_of p)).
  destruct (failure rs) as [e|].
  - exists (length (oks rs)), "ROLLBACK".
    rewrite !logs_of_app, !queries_of_app.
    rewrite (proj1 (statement_events_logs w (now w 0) _ 1)).
    rewrite (proj1 (statement_events_read w (now w 0) _ 1)).
    destruct (client_query w _ "ROLLBACK" None);
      destruct (after_handler_complete w callback) as [-> | ->];
      destruct callback;
      cbn; rewrite ?app_nil_r; auto.
  - exists (length (statements_of p)), "COMMIT".
    rewrite firstn_all.
    rewrite !logs_of_app, !queries_of_app.
    rewrite (proj1 (statement_events_logs w (now w 0) _ 1)).
    rewrite (proj1 (statement_events_read w (now w 0) _ 1)).
    destruct (client_query w _ "COMMIT" None); destruct callback;
      cbn; rewrite ?app_nil_r; auto.
Qed.

Lemma batch_logs_what_it_sends_witness :
  exists (k : nat) (closing : string),
    logs_of (trace_of (transaction s2_fails (PreparedArray [S1; S2; S3]) VFunction))
    = map (fun q => (qd_query q, default [] (qd_params q))) (take k [S1; S2; S3])
    /\ queries_of (trace_of (transaction s2_fails (PreparedArray [S1; S2; S3])
                               VFunction))
       = ("BEGIN", None) :: map as_query (take k [S1; S2; S3]) ++ [(closing, None)]
    /\ (closing = "ROLLBACK" \/ closing = "COMMIT").
Proof.
  apply (batch_logs_what_it_sends s2_fails (PreparedArray [S1; S2; S3]) VFunction);
    [discriminate | reflexivity | reflexivity].
Defined.

(** X12.  On a connection, the batch announces its start first and its
    completion last, once each, and in between the rollback, when a step
    failed, or the commit, when none did.  The completion of the rollback
    or of the commit is announced when, and only when, the connection
    answered the [ROLLBACK] or the [COMMIT] without an error. *)
Theorem batch_announcements (w : World) (p : prepared) (callback : value) :
  prepared_length p <> 0 -> isFull w = false -> connect w = None ->
  let infos := infos_of (trace_of (transaction w p callback)) in
  let stmts := statements_of p in
  (forall results txnErr later,
     responses w 0 (BEGIN :: stmts) = map Ok results ++ Fail txnErr :: later ->
     (forall v,
        client_query w (S (length results)) "ROLLBACK" None = Ok v ->
        infos = ["Transaction started..."; "Rollback started...";
                 "Rollback complete!"; "Transaction complete!"])
     /\ (forall err,
           client_query w (S (length results)) "ROLLBACK" None = Fail err ->
           infos = ["Transaction started..."; "Rollback started...";
                    "Transaction complete!"]))
  /\ (forall results,
        responses w 0 (BEGIN :: stmts) = map Ok results ->
        (forall v,
           client_query w (S (length stmts)) "COMMIT" None = Ok v ->
           infos = ["Transaction started..."; "Commit started...";
                    "Commit complete!"; "Transaction complete!"])
        /\ (forall err,
              client_query w (S (length stmts)) "COMMIT" None = Fail err ->
              infos = ["Transaction started..."; "Commit started...";
                       "Transaction complete!"])).
Proof.
  intros Hlen Hfull Hconn infos stmts. subst infos stmts. unfold trace_of.
  destruct (transaction_connected w p callback Hlen Hfull Hconn) as (n & t & ->).
  cbn [snd trace]. unfold batch_events, rollback_events, commit_events.
  split.
  - intros results txnErr later ->.
    destruct (answers_first_failure results txnErr later) as [-> ->].
    rewrite !infos_of_app.
    rewrite (proj1 (proj2 (statement_events_logs w (now w 0) _ 1))).
    split; [intros v -> | intros err ->];
      destruct (after_handler_complete w callback) as [-> | ->];
      destruct callback; reflexivity.
  - intros results ->.
    destruct (answers_all_ok results) as [-> ->].
    rewrite !infos_of_app.
    rewrite (proj1 (proj2 (statement_events_logs w (now w 0) _ 1))).
    split; [intros v -> | intros err ->]; destruct callback; reflexivity.
Qed.

Lemma batch_announcements_witness :
  infos_of (trace_of (transaction rollback_fails (PreparedArray [S1; S2; S3])
                        VFunction))
  = ["Transaction started..."; "Rollback started..."; "Transaction complete!"]
  /\ infos_of (trace_of (transaction calm (PreparedArray [S1; S2]) VFunction))
     = ["Transaction started..."; "Commit started...";
        "Commit complete!"; "Transaction complete!"].
Proof.
  pose proof (batch_announcements rollback_fails (PreparedArray [S1; S2; S3])
                VFunction ltac:(discriminate) eq_refl eq_refl) as [Hrollback _].
  pose proof (batch_announcements calm (PreparedArray [S1; S2])
                VFunction ltac:(discriminate) eq_refl eq_refl) as [_ Hcommit].
  split.
  - exact (proj2 (Hrollback [VResult "BEGIN"; VResult "S1"] boom
                    [Ok (VResult "S3")] eq_refl) lost eq_refl).
  - exact (proj1 (Hcommit [VResult "BEGIN"; VResult "S1"; VResult "S2"] eq_refl)
             (VResult "COMMIT") eq_refl).
Defined.

(** ** A batch given as a string *)

Lemma statements_texts (s : string) :
  map qd_query (statements_of (PreparedString s))
  = List.filter (fun v => negb (String.eqb v "")) (Js.split ";" s).
Proof.
  cbn [statements_of]. unfold split_statements.
  induction (List.filter _ (Js.split ";" s)) as [|v l IH]; [reflexivity |].
  cbn. now rewrite IH.
Qed.

(** X13.  Every statement cut out of a string is non-empty, carries no
    parameters and holds no semicolon: the string is cut at every
    semicolon, also at one inside a quoted literal. *)
Theorem statements_from_string_shape (s : string) :
  Forall (fun q => qd_query q <> "" /\ qd_params q = None
                   /\ ~ Js.occurs ";" (qd_query q))
         (statements_of (PreparedString s)).
Proof.
  cbn [statements_of]. unfold split_statements.
  rewrite List.Forall_forall. intros q Hq.
  apply in_map_iff in Hq as (v & <- & Hv).
  apply filter_In in Hv as [Hin Hne]. cbn [qd_query qd_params].
  split; [| split; [reflexivity |]].
  - intros ->. discriminate Hne.
  - pose proof (split_pieces ";" s ltac:(discriminate)) as Hall.
    rewrite List.Forall_forall in Hall. now apply Hall.
Qed.

Lemma glue_nonempty (l : list string) :
  glue (List.filter (fun v => negb (String.eqb v "")) l) = glue l.
Proof.
  induction l as [|v l IH]; [reflexivity |].
  cbn [List.filter]. destruct (String.eqb v "") eqn:E; cbn [negb glue].
  - apply String.eqb_eq in E as ->. exact IH.
  - now rewrite IH.
Qed.

Lemma glue_split_aux :
  forall n s acc, String.length s <= n ->
    glue (Js.split_aux ";" 0 acc s) = acc +:+ without_semicolons s.
Proof.
  induction n as [|n IH]; intros s acc Hn.
  - destruct s; [| simpl in Hn; lia]. cbn. now rewrite !append_empty_r.
  - destruct (split_aux_cases ";" acc s ltac:(discriminate))
      as [[-> H] | [(rest & -> & H) | (c & s' & -> & Hp & H)]]; rewrite H.
    + cbn. now rewrite !append_empty_r.
    + change (";" +:+ rest) with (String semicolon rest) in Hn |- *.
      cbn [glue]. rewrite IH by (simpl in Hn; lia). reflexivity.
    + rewrite IH by (simpl in Hn; lia).
      cbn [without_semicolons].
      assert (Ascii.eqb c semicolon = false) as ->.
      { apply Ascii.eqb_neq. intros ->. discriminate Hp. }
      apply append_snoc.
Qed.

Lemma glue_empty (l : list string) :
  Forall (fun v => v <> "") l -> glue l = "" -> l = [].
Proof.
  destruct l as [|v l]; [reflexivity |].
  intros Hall Hg. apply Forall_cons in Hall as [Hv _].
  destruct v; [congruence | discriminate Hg].
Qed.

Lemma statements_from_string_text_aux (s : string) :
  glue (map qd_query (statements_of (PreparedString s))) = without_semicolons s.
Proof.
  rewrite statements_texts, glue_nonempty. unfold Js.split.
  now rewrite (glue_split_aux (String.length s)).
Qed.

(** X14.  Cutting a string into statements loses nothing but the semicolons:
    the texts of the statements, put end to end in their order, are the
    string without its semicolons.  Nothing is trimmed or reordered, and
    the string yields no statement exactly when it holds nothing but
    semicolons. *)
Theorem statements_from_string_text (s : string) :
  glue (map qd_query (statements_of (PreparedString s))) = without_semicolons s
  /\ (statements_of (PreparedString s) = [] <-> without_semicolons s = "").
Proof.
  pose proof (statements_from_string_text_aux s) as Hg.
  split; [exact Hg |]. split.
  - intros H. now rewrite H in Hg.
  - intros Hw. rewrite Hw in Hg.
    apply map_eq_nil with (f := qd_query). apply glue_empty; [| exact Hg].
    rewrite statements_texts. rewrite List.Forall_forall. intros v Hv.
    apply filter_In in Hv as [_ Hne]. intros ->. discriminate Hne.
Qed.

Lemma statements_from_string_text_witness :
  statements_of (PreparedString ";;") = [].
Proof.
  apply (proj2 (proj2 (statements_from_string_text ";;"))). reflexivity.
Defined.

(** X15.  A string that is not empty but holds nothing except semicolons
    passes the check on the batch and yields no statement: on a connection
    the batch is a [BEGIN] followed at once by a [COMMIT], and nothing is
    logged. *)
Theorem batch_of_semicolons (w : World) (s : string) (callback : value)
    (began : value) :
  s <> "" -> without_semicolons s = "" ->
  isFull w = false -> connect w = None ->
  client_query w 0 "BEGIN" None = Ok began ->
  let tr := trace_of (transaction w (PreparedString s) callback) in
  statements_of (PreparedString s) = []
  /\ queries_of tr = [("BEGIN", None); ("COMMIT", None)]
  /\ logs_of tr = [].
Proof.
  intros Hs Hw Hfull Hconn Hbegin tr. subst tr.
  assert (statements_of (PreparedString s) = []) as Hnone.
  { pose proof (statements_from_string_text_aux s) as Hg.
    rewrite Hw in Hg.
    apply map_eq_nil with (f := qd_query). apply glue_empty; [| exact Hg].
    rewrite statements_texts. rewrite List.Forall_forall. intros v Hv.
    apply filter_In in Hv as [_ Hne]. intros ->. discriminate Hne. }
  split; [exact Hnone |].
  assert (prepared_length (PreparedString s) <> 0) as Hlen.
  { cbn. destruct s; [congruence | discriminate]. }
  unfold trace_of.
  destruct (transaction_connected w (PreparedString s) callback Hlen Hfull Hconn)
    as (n & t & ->).
  cbn [snd trace]. unfold batch_events, commit_events. rewrite Hnone.
  cbn [responses BEGIN qd_query qd_params]. rewrite Hbegin.
  cbn [failure oks statement_events app length].
  destruct (client_query w 1 "COMMIT" None); destruct callback; split; reflexivity.
Qed.

Lemma batch_of_semicolons_witness :
  queries_of (trace_of (transaction calm (PreparedString ";;;") VFunction))
  = [("BEGIN", None); ("COMMIT", None)].
Proof.
  pose proof (batch_of_semicolons calm ";;;" VFunction (VResult "BEGIN")
                ltac:(discriminate) eq_refl eq_refl eq_refl eq_refl)
    as (_ & Hq & _).
  exact Hq.
Defined.

(** * Further properties of the order-by clause builder *)

Lemma escapeColumn_with_joins (escapeField : string -> string) (table : string)
    (groups : list (list join_entry)) (columnName : string) :
  exists c, escapeColumn escapeField table (Some groups) columnName = Some c.
Proof.
  unfold escapeColumn. destruct (Nat.eqb _ 1); [eauto |].
  destruct (every_find _ groups); eauto.
Qed.

(** X16.  When join groups are supplied, be it an empty list of them, every
    column reference resolves: the resolved columns are the resolutions of
    all the references, one for one and in their order, and an order spec
    is left without a resolved column only if it names no column. *)
Theorem joins_resolve_every_column (escapeField : string -> string)
    (table : string) (groups : list (list join_entry)) (names : list string) :
  map Some (resolveColumns escapeField table (Some groups) names)
  = map (escapeColumn escapeField table (Some groups)) names
  /\ (resolveColumns escapeField table (Some groups) names = [] -> names = []).
Proof.
  rewrite resolveColumns_omap.
  assert (map Some (omap (escapeColumn escapeField table (Some groups)) names)
          = map (escapeColumn escapeField table (Some groups)) names) as Hmap.
  { induction names as [|n names IH]; [reflexivity |].
    cbn [omap list_omap map].
    destruct (escapeColumn_with_joins escapeField table groups n) as [c ->]. cbn.
    now rewrite IH. }
  split; [exact Hmap |].
  intros H. rewrite H in Hmap. destruct names; [reflexivity | discriminate].
Qed.

Lemma joins_resolve_every_column_witness :
  (resolveColumns escapeField_pg "users" (Some []) [] = [] ->
   @nil string = [])
  /\ map Some (resolveColumns escapeField_pg "users" (Some []) ["owner__bio"; "name"])
     = map (escapeColumn escapeField_pg "users" (Some [])) ["owner__bio"; "name"].
Proof.
  split.
  - exact (proj2 (joins_resolve_every_column escapeField_pg "users" [] [])).
  - exact (proj1 (joins_resolve_every_column escapeField_pg "users" []
                    ["owner__bio"; "name"])).
Defined.

(** X17.  Without join groups the resolved columns of an order spec are its
    references without the separator [__], each qualified with the base
    table, in their order; the namespaced ones leave no trace. *)
Theorem no_joins_keep_plain_columns (escapeField : string -> string)
    (table : string) (names : list string) :
  resolveColumns escapeField table None names
  = map (qualified escapeField table) (List.filter plain names)
  /\ forall n, plain n = true <-> ~ Js.occurs "__" n.
Proof.
  split.
  - rewrite resolveColumns_omap.
    induction names as [|n names IH]; [reflexivity |].
    cbn [omap list_omap List.filter]. unfold escapeColumn at 1. unfold plain at 1.
    destruct (Nat.eqb (length (Js.split "__" n)) 1); cbn; now rewrite IH.
  - intros n. unfold plain. rewrite Nat.eqb_eq.
    apply split_length_one. discriminate.
Qed.

Lemma no_joins_keep_plain_columns_witness :
  plain "name" = true /\ ~ Js.occurs "__" "name".
Proof.
  pose proof (proj2 (no_joins_keep_plain_columns escapeField_pg "users" []) "name")
    as [H _].
  split; [reflexivity | apply H; reflexivity].
Defined.

(** X18.  An order spec without a transformation contributes its first
    resolved column and nothing of the others: a fragment built from that
    one spec is the keyword, the first resolved column and the direction. *)
Theorem default_transformation_first_column (escapeField : string -> string)
    (table : string) (joinArray : option (list (list join_entry)))
    (groupByArray : list string) (h : heap) (r : nat) (v : orderObj)
    (c : string) (cs : list string) :
  h !! r = Some v -> transformation v = None ->
  resolveColumns escapeField table joinArray (columnNames v) = c :: cs ->
  fst (generateOrderByClause escapeField table [r] groupByArray joinArray h)
  = Normal (" ORDER BY " +:+ c +:+ " " +:+ direction v).
Proof.
  intros Hv Ht Hc.
  destruct (generateOrderByClause_run escapeField table joinArray [r]
              groupByArray h) as (h' & Hrun & _).
  { repeat constructor. eauto. }
  rewrite Hrun. cbn [fst]. f_equal.
  rewrite resolveColumns_resolved in Hc.
  unfold clause, specs_of. cbn [omap list_omap]. rewrite Hv. cbn.
  unfold survives. rewrite Hc. cbn. unfold term_of. now rewrite Hc, Ht.
Qed.

Lemma default_transformation_first_column_witness :
  fst (generateOrderByClause escapeField_pg "users" [0] [] (Some two_groups)
         {[ 0 := by_bio ]})
  = Normal (" ORDER BY " +:+ qualified escapeField_pg "profile" "bio" +:+ " "
            +:+ direction by_bio).
Proof.
  apply (default_transformation_first_column escapeField_pg "users"
           (Some two_groups) [] {[ 0 := by_bio ]} 0 by_bio
           (qualified escapeField_pg "profile" "bio")
           [qualified escapeField_pg "users" "name"]);
    vm_compute; reflexivity.
Defined.

Lemma clause_render (escapeField : string -> string) (table : string)
    (joinArray : option (list (list join_entry))) (h : heap) (refs : list nat) :
  clause escapeField table joinArray " ORDER BY " (specs_of h refs)
  = render (terms_of escapeField table joinArray h refs).
Proof.
  unfold clause, render, terms_of.
  destruct (List.filter _ (specs_of h refs)); reflexivity.
Qed.

Lemma terms_of_same (escapeField : string -> string) (table : string)
    (joinArray : option (list (list join_entry))) (h h' : heap) (refs : list nat) :
  (forall r, In r refs ->
     exists v v', h !! r = Some v /\ h' !! r = Some v' /\ same_spec v v') ->
  terms_of escapeField table joinArray h refs
  = terms_of escapeField table joinArray h' refs.
Proof.
  unfold terms_of, specs_of.
  induction refs as [|r refs IH]; intros Hsame; [reflexivity |].
  destruct (Hsame r (or_introl eq_refl)) as (v & v' & Hv & Hv' & Hc & Hd & Ht).
  assert (resolved escapeField table joinArray v
          = resolved escapeField table joinArray v') as Hres
    by (unfold resolved; now rewrite Hc).
  assert (survives escapeField table joinArray v
          = survives escapeField table joinArray v') as Hsurv
    by (unfold survives; now rewrite Hres).
  assert (term_of escapeField table joinArray v
          = term_of escapeField table joinArray v') as Hterm
    by (unfold term_of; now rewrite Hres, Hd, Ht).
  specialize (IH (fun x Hx => Hsame x (or_intror Hx))).
  cbn [omap list_omap]. rewrite Hv, Hv'. cbn [List.filter]. rewrite <- Hsurv.
  destruct (survives escapeField table joinArray v); cbn [map];
    [now rewrite Hterm, IH | exact IH].
Qed.

(** X19.  The fragment does not depend on what [escapedColumns] held before:
    two stores whose order specs agree on [columnNames], [direction] and
    [transformation] give the same fragment. *)
Theorem stale_escapedColumns_ignored (escapeField : string -> string)
    (table : string) (joinArray : option (list (list join_entry)))
    (groupByArray : list string) (h h' : heap) (refs : list nat) :
  (forall r, In r refs ->
     exists v v', h !! r = Some v /\ h' !! r = Some v' /\ same_spec v v') ->
  fst (generateOrderByClause escapeField table refs groupByArray joinArray h)
  = fst (generateOrderByClause escapeField table refs groupByArray joinArray h').
Proof.
  intros Hsame.
  assert (all_objects h refs /\ all_objects h' refs) as [Hall Hall'].
  { split; apply List.Forall_forall; intros r Hr;
      destruct (Hsame r Hr) as (v & v' & Hv & Hv' & _); eauto. }
  destruct (generateOrderByClause_run escapeField table joinArray refs
              groupByArray h Hall) as (h1 & -> & _).
  destruct (generateOrderByClause_run escapeField table joinArray refs
              groupByArray h' Hall') as (h2 & -> & _).
  cbn [fst]. rewrite !clause_render.
  now rewrite (terms_of_same escapeField table joinArray h h' refs Hsame).
Qed.

Lemma stale_escapedColumns_ignored_witness :
  fst (generateOrderByClause escapeField_pg "users" [0] [] None one_spec)
  = fst (generateOrderByClause escapeField_pg "users" [0] [] None
           {[ 0 := OrderObj ["name"] "ASC" None (Some ["stale"]) ]}).
Proof.
  apply stale_escapedColumns_ignored.
  intros r [<- | []].
  exists by_name, (OrderObj ["name"] "ASC" None (Some ["stale"])).
  repeat split.
Defined.

Lemma map_escape_throws (escapeField : string -> string) (table : string)
    (joinArray : option (list (list join_entry))) (refs : list nat) :
  forall h, ~ all_objects h refs ->
    exists h', map_escape escapeField table joinArray refs h
               = (Throw not_an_object, h').
Proof.
  induction refs as [|r refs IH]; intros h Hbad.
  - destruct Hbad. constructor.
  - cbn [map_escape]. unfold bind, read, write.
    destruct (h !! r) as [v|] eqn:Hv; [| eauto].
    set (h1 := <[r := _]> h).
    destruct (IH h1) as (h' & ->); [| eauto].
    intros Hall. apply Hbad. constructor; [eauto |].
    eapply Forall_impl; [exact Hall |]. intros x Hx. unfold h1 in Hx.
    rewrite lookup_insert in Hx. case_decide; [subst; eauto | exact Hx].
Qed.

(** X20.  The builder throws exactly when an element of the array is not an
    order-spec object; otherwise it returns a fragment. *)
Theorem builder_throws_iff_not_object (escapeField : string -> string)
    (table : string) (joinArray : option (list (list join_entry)))
    (groupByArray : list string) (h : heap) (refs : list nat) :
  (fst (generateOrderByClause escapeField table refs groupByArray joinArray h)
   = Throw not_an_object
   <-> ~ all_objects h refs)
  /\ (all_objects h refs ->
        exists fragment,
          fst (generateOrderByClause escapeField table refs groupByArray
                 joinArray h) = Normal fragment).
Proof.
  assert (all_objects h refs ->
          exists fragment,
            fst (generateOrderByClause escapeField table refs groupByArray
                   joinArray h) = Normal fragment) as Hok.
  { intros Hall.
    destruct (generateOrderByClause_run escapeField table joinArray refs
                groupByArray h Hall) as (h' & -> & _).
    eauto. }
  split; [| exact Hok]. split.
  - intros Hthrow Hall. destruct (Hok Hall) as [f Hf]. congruence.
  - intros Hbad.
    destruct (map_escape_throws escapeField table joinArray refs h Hbad)
      as (h' & Hrun).
    unfold generateOrderByClause, bind. now rewrite Hrun.
Qed.

Lemma builder_throws_iff_not_object_witness :
  fst (generateOrderByClause escapeField_pg "users" [0; 7] [] None one_spec)
  = Throw not_an_object.
Proof.
  apply (proj1 (builder_throws_iff_not_object escapeField_pg "users" None []
                  one_spec [0; 7])).
  intros Hall. apply Forall_cons in Hall as [_ Hall].
  apply Forall_cons in Hall as [[v Hv] _]. vm_compute in Hv. discriminate Hv.
Defined.

(** X21.  A namespaced reference is qualified with its alias chain as soon
    as some entry of some join group carries that alias: in which group
    the entry stands, and how many entries carry the alias, does not
    matter. *)
Theorem alias_found_anywhere (escapeField : string -> string) (table : string)
    (groups : list (list join_entry)) (columnName : string) (j : join_entry) :
  Js.occurs "__" columnName ->
  In j (concat groups) ->
  joinAlias j = Js.join "__" (Js.slice_init (Js.split "__" columnName)) ->
  escapeColumn escapeField table (Some groups) columnName
  = Some (qualified escapeField
            (Js.join "__" (Js.slice_init (Js.split "__" columnName)))
            (Js.last_elt (Js.split "__" columnName))).
Proof.
  intros Hocc Hin Halias. unfold escapeColumn.
  assert (Nat.eqb (length (Js.split "__" columnName)) 1 = false) as ->.
  { apply Nat.eqb_neq. intros Hl.
    now apply (split_length_one "__" columnName ltac:(discriminate)) in Hl. }
  rewrite every_find_concat.
  destruct (List.find _ (concat groups)) as [j'|] eqn:Hfind.
  - apply find_some in Hfind as [_ Hj']. apply String.eqb_eq in Hj'.
    now rewrite Hj'.
  - apply (find_none _ _ Hfind) in Hin. apply String.eqb_neq in Hin. contradiction.
Qed.

Lemma alias_found_anywhere_witness :
  escapeColumn escapeField_pg "users"
    (Some [[Join "account"]; [Join "profile"; Join "profile"]; [Join "profile"]])
    "profile__bio"
  = Some (qualified escapeField_pg "profile" "bio").
Proof.
  apply (alias_found_anywhere escapeField_pg "users"
           [[Join "account"]; [Join "profile"; Join "profile"]; [Join "profile"]]
           "profile__bio" (Join "profile")).
  - now exists "profile", "bio".
  - right. left. reflexivity.
  - reflexivity.
Defined.

(** X22.  The fragment lists the terms of the order specs in the order of
    the array: the terms of two arrays put one after the other are the
    terms of the first followed by the terms of the second, and the fragment
    of each array is made of its terms. *)
Theorem fragment_of_concatenation (escapeField : string -> string)
    (table : string) (joinArray : option (list (list join_entry)))
    (groupByArray : list string) (h : heap) (refs1 refs2 : list nat) :
  all_objects h (refs1 ++ refs2) ->
  let fragment refs :=
    fst (generateOrderByClause escapeField table refs groupByArray joinArray h) in
  let terms := terms_of escapeField table joinArray h in
  fragment refs1 = Normal (render (terms refs1))
  /\ fragment refs2 = Normal (render (terms refs2))
  /\ fragment (refs1 ++ refs2) = Normal (render (terms refs1 ++ terms refs2)).
Proof.
  intros Hall fragment terms. subst fragment terms.
  pose proof Hall as Hparts. apply Forall_app in Hparts as [H1 H2].
  destruct (generateOrderByClause_run escapeField table joinArray refs1
              groupByArray h H1) as (h1 & -> & _).
  destruct (generateOrderByClause_run escapeField table joinArray refs2
              groupByArray h H2) as (h2 & -> & _).
  destruct (generateOrderByClause_run escapeField table joinArray (refs1 ++ refs2)
              groupByArray h Hall) as (h3 & -> & _).
  cbn [fst]. rewrite !clause_render. repeat split.
  f_equal. f_equal. unfold terms_of, specs_of.
  now rewrite omap_app, List.filter_app, map_app.
Qed.

Lemma fragment_of_concatenation_witness :
  fst (generateOrderByClause escapeField_pg "users" ([0] ++ [0]) [] None one_spec)
  = Normal (render (terms_of escapeField_pg "users" None one_spec [0]
                    ++ terms_of escapeField_pg "users" None one_spec [0])).
Proof.
  apply (fragment_of_concatenation escapeField_pg "users" None [] one_spec [0] [0]).
  repeat constructor; eexists; vm_compute; reflexivity.
Defined.

(** * Further properties of the batch given as a string, and of the options *)

(** X23.  A string that yields at least one statement is run exactly as the
    array of its statements would be: same interactions, same end, for
    every handler and whatever the collaborators answer. *)
Theorem string_batch_as_array (w : World) (s : string) (callback : value) :
  statements_of (PreparedString s) <> [] ->
  transaction w (PreparedString s) callback
  = transaction w (PreparedArray (statements_of (PreparedString s))) callback.
Proof.
  intros Hne. unfold transaction.
  assert (Nat.eqb (prepared_length (PreparedString s)) 0 = false) as ->.
  { apply Nat.eqb_neq. cbn. destruct s; [| discriminate].
    destruct Hne. reflexivity. }
  assert (Nat.eqb (prepared_length
                     (PreparedArray (statements_of (PreparedString s)))) 0
          = false) as ->.
  { apply Nat.eqb_neq. cbn [prepared_length].
    destruct (statements_of (PreparedString s)); [congruence | discriminate]. }
  reflexivity.
Qed.

Lemma string_batch_as_array_witness :
  transaction s2_fails (PreparedString "S1;S2;S3") VFunction
  = transaction s2_fails (PreparedArray [S1; S2; S3]) VFunction.
Proof.
  apply (string_batch_as_array s2_fails "S1;S2;S3" VFunction). discriminate.
Defined.

Lemma or_default_cases (x : option Z) (d : Z) :
  d <> 0%Z ->
  (exists n, Config.or_default x d = Some n /\ n <> 0%Z)
  /\ (forall n, n <> 0%Z -> x = Some n -> Config.or_default x d = Some n)
  /\ (x = Some 0%Z \/ x = None -> Config.or_default x d = Some d)
  /\ Config.or_default (Config.or_default x d) d = Config.or_default x d.
Proof.
  intros Hd. pose proof Hd as Hd'. apply Z.eqb_neq in Hd'.
  unfold Config.or_default. destruct x as [n|].
  - destruct (Z.eqb n 0) eqn:E.
    + apply Z.eqb_eq in E as ->.
      split; [exists d; split; [reflexivity | exact Hd] |].
      split; [intros n Hn [= <-]; congruence |].
      split; [intros _; reflexivity | now rewrite Hd'].
    + pose proof E as E'. apply Z.eqb_neq in E'.
      split; [exists n; split; [reflexivity | exact E'] |].
      split; [intros n' Hn' [= <-]; reflexivity |].
      split; [intros [[= ->] | [=]]; congruence | now rewrite E].
  - split; [exists d; split; [reflexivity | exact Hd] |].
    split; [intros n Hn [=] |].
    split; [intros _; reflexivity | now rewrite Hd'].
Qed.

(** X24.  After the constructor has filled in the pool options, each of the
    three is a number other than zero; a number other than zero that was
    supplied is kept, an absent option or a zero gets the default (30000,
    30000 and 100), so a zero cannot be configured; filling in a second
    time changes nothing. *)
Theorem fill_defaults_options (cfg : Config.config) :
  let c := Config.fill_defaults cfg in
  (exists i t m,
     Config.idleTimeoutMillis c = Some i
     /\ Config.connectionTimeoutMillis c = Some t
     /\ Config.max c = Some m
     /\ i <> 0%Z /\ t <> 0%Z /\ m <> 0%Z)
  /\ (forall n, n <> 0%Z ->
        (Config.idleTimeoutMillis cfg = Some n ->
         Config.idleTimeoutMillis c = Some n)
        /\ (Config.connectionTimeoutMillis cfg = Some n ->
            Config.connectionTimeoutMillis c = Some n)
        /\ (Config.max cfg = Some n -> Config.max c = Some n))
  /\ (Config.idleTimeoutMillis cfg = Some 0%Z \/ Config.idleTimeoutMillis cfg = None ->
        Config.idleTimeoutMillis c = Some 30000%Z)
  /\ (Config.connectionTimeoutMillis cfg = Some 0%Z
      \/ Config.connectionTimeoutMillis cfg = None ->
        Config.connectionTimeoutMillis c = Some 30000%Z)
  /\ (Config.max cfg = Some 0%Z \/ Config.max cfg = None ->
        Config.max c = Some 100%Z)
  /\ Config.fill_defaults c = c.
Proof.
  destruct cfg as [i t m]. cbn.
  destruct (or_default_cases i 30000%Z ltac:(discriminate))
    as ([i' [Hi Hi']] & Hki & Hdi & Hii).
  destruct (or_default_cases t 30000%Z ltac:(discriminate))
    as ([t' [Ht Ht']] & Hkt & Hdt & Htt).
  destruct (or_default_cases m 100%Z ltac:(discriminate))
    as ([m' [Hm Hm']] & Hkm & Hdm & Hmm).
  split; [exists i', t', m'; repeat split; assumption |].
  split; [intros n Hn; repeat split; auto |].
  split; [exact Hdi |]. split; [exact Hdt |]. split; [exact Hdm |].
  unfold Config.fill_defaults. cbn. now rewrite Hii, Htt, Hmm.
Qed.

Lemma fill_defaults_options_witness :
  Config.max (Config.fill_defaults (Config.Build (Some 5000%Z) None (Some 0%Z)))
  = Some 100%Z
  /\ Config.idleTimeoutMillis
       (Config.fill_defaults (Config.Build (Some 5000%Z) None (Some 0%Z)))
     = Some 5000%Z.
Proof.
  pose proof (fill_defaults_options (Config.Build (Some 5000%Z) None (Some 0%Z)))
    as (_ & Hkeep & _ & _ & Hmax & _).
  split.
  - apply Hmax. left. reflexivity.
  - apply (Hkeep 5000%Z); [discriminate | reflexivity].
Defined.
